(** * Bionic-Reader: the presentation engine, embedded and verified

    A shallow embedding of the RSVP reader's core:
    - [tokenizeText] and [getHighlightRange] of [utils/textProcessor],
    - the timing and statistics logic of the [Reader] component
      ([getDelay], [startReading], [pauseReading], [handleFinish] and the
      pause-tracking effect),
    - [handleReadingFinish] of [App] and the emptiness guard of
      [FileUpload.processFile],
    - the rest of the reader's logic: the handlers of its keys, buttons
      and sliders, the timer callback and [renderWord]; the text assembly
      of [extractPdfText]; and the chart data of the [Stats] component.

    Conventions of the embedding.
    - A JavaScript string is the list of its UTF-16 code units ([list N]);
      [word.length] is the length of that list.
    - Integer-valued JavaScript numbers (string lengths, array indices,
      word counts, [Date.now()] timestamps in milliseconds) are [Z]: below
      2^53 binary64 arithmetic on them is exact, and a time value is at
      most 8.64e15, which is below 2^53.
    - The running totals of the statistics are read back from storage and
      only grow: they are binary64 values and are added as such.
    - Numbers that leave the integers ([len * 0.35], the delays, the
      duration in seconds) are IEEE 754 binary64 values, modelled by the
      standard library's [spec_float] with [prec = 53] and [emax = 1024];
      the operations are [SFmul], [SFdiv], [SFadd] and [SFcompare].
    - React refs are explicit fields of a state record and [Date.now()] is
      an explicit argument of every operation that reads the clock. *)

From Stdlib Require Import ZArith NArith PArith Bool String Ascii List Lia.
From Stdlib Require Import SpecFloat.
Import ListNotations.

Local Open Scope Z_scope.

(* ================================================================== *)
(** * JavaScript numbers *)
(* ================================================================== *)

Module JS.

Definition number : Type := spec_float.

Definition prec : Z := 53.
Definition emax : Z := 1024.

(** The Number nearest to an integer (exact below 2^53). *)
Definition of_Z (z : Z) : number := binary_normalize prec emax z 0 false.

Definition mul (x y : number) : number := SFmul prec emax x y.
Definition div (x y : number) : number := SFdiv prec emax x y.
Definition add (x y : number) : number := SFadd prec emax x y.

(** [x > y] and [x < y] of JavaScript: false as soon as one side is NaN. *)
Definition gt (x y : number) : bool := SFltb y x.
Definition lt (x y : number) : bool := SFltb x y.

(** The literals of the source that are not integers.  [0.35] and [1.3]
    are not binary64 values; the parser takes the nearest ones. *)
Definition lit_0_35 : number := S754_finite false 6305039478318694 (-54).
Definition lit_1_5 : number := S754_finite false 6755399441055744 (-52).
Definition lit_1_3 : number := S754_finite false 5854679515581645 (-52).

Definition zero : number := S754_zero false.

(** The signed integer mantissa of a finite number: the value is
    [signed s m * 2 ^ e]. *)
Definition signed (s : bool) (m : positive) : Z :=
  if s then Z.neg m else Z.pos m.

(** [Math.ceil], read as an integer.  The ceiling of [sm * 2^e] is
    [- floor (- sm * 2^e)].  NaN and the infinities have no integer
    reading; they are sent to 0 and never arise from the product of a
    string length with [0.35] (see [orp_product_finite]). *)
Definition ceil_Z (x : number) : Z :=
  match x with
  | S754_finite s m e =>
      if 0 <=? e then signed s m * 2 ^ e
      else - ((- signed s m) / 2 ^ (- e))
  | _ => 0
  end.

(** [Math.round]: the nearest integer, ties towards +infinity; NaN, the
    infinities and the zeros are returned as they are, and a result of
    zero keeps the sign of the argument. *)
Definition round (x : number) : number :=
  match x with
  | S754_finite s m e =>
      if 0 <=? e then x
      else
        let z := (2 * signed s m + 2 ^ (- e)) / 2 ^ (1 - e) in
        if z =? 0 then S754_zero s else of_Z z
  | _ => x
  end.

(** Truthiness of a timestamp held in a ref that starts as [null]:
    [null] and [0] are falsy. *)
Definition truthy (r : option Z) : bool :=
  match r with
  | Some t => negb (t =? 0)
  | None => false
  end.

Definition sub (x y : number) : number := SFsub prec emax x y.

Definition is_nan (x : number) : bool :=
  match x with
  | S754_nan => true
  | _ => false
  end.

(** [Math.min] and [Math.max] of two numbers: NaN as soon as one side is
    NaN, and [-0] counts as smaller than [+0]. *)
Definition Math_min (x y : number) : number :=
  if is_nan x || is_nan y then S754_nan
  else if SFltb x y then x
  else if SFltb y x then y
  else match x with
       | S754_zero true => x
       | _ => y
       end.

Definition Math_max (x y : number) : number :=
  if is_nan x || is_nan y then S754_nan
  else if SFltb y x then x
  else if SFltb x y then y
  else match x with
       | S754_zero false => x
       | _ => y
       end.

(** Structural equality of numbers, as a boolean. *)
Definition number_eqb (x y : number) : bool :=
  match x, y with
  | S754_zero a, S754_zero b => Bool.eqb a b
  | S754_infinity a, S754_infinity b => Bool.eqb a b
  | S754_nan, S754_nan => true
  | S754_finite a m e, S754_finite b m' e' =>
      Bool.eqb a b && Pos.eqb m m' && Z.eqb e e'
  | _, _ => false
  end.

End JS.

(* ================================================================== *)
(** * Strings *)
(* ================================================================== *)

Definition jsstring : Type := list N.

(** The code units of an ASCII literal. *)
Fixpoint lit (s : string) : jsstring :=
  match s with
  | EmptyString => []
  | String c rest => N_of_ascii c :: lit rest
  end.

(** The class [\s] of regular expressions, which is also what [trim]
    removes: WhiteSpace and LineTerminator of ECMAScript. *)
Definition is_space (c : N) : bool :=
  ((9 <=? c) && (c <=? 13))%N
  || (c =? 32)%N || (c =? 160)%N || (c =? 5760)%N
  || ((8192 <=? c) && (c <=? 8202))%N
  || (c =? 8232)%N || (c =? 8233)%N || (c =? 8239)%N || (c =? 8287)%N
  || (c =? 12288)%N || (c =? 65279)%N.

Fixpoint drop_spaces (s : jsstring) : jsstring :=
  match s with
  | [] => []
  | c :: rest => if is_space c then drop_spaces rest else s
  end.

(** [String.prototype.trim]. *)
Definition trim (s : jsstring) : jsstring :=
  rev (drop_spaces (rev (drop_spaces s))).

(** [s.split(/\s+/)].  [in_sep] says that the previous code unit belonged
    to a separator (a maximal run of white space, which the greedy [\s+]
    consumes whole); [cur] is the piece being read, reversed.  A separator
    at the very start or end of [s] yields an empty piece there, and the
    empty string yields the single piece [""] since [\s+] does not match
    the empty string. *)
Fixpoint split_go (in_sep : bool) (cur : jsstring) (s : jsstring)
  : list jsstring :=
  match s with
  | [] => [rev cur]
  | c :: rest =>
      if is_space c then
        if in_sep then split_go true cur rest
        else rev cur :: split_go true [] rest
      else split_go false (c :: cur) rest
  end.

Definition split_spaces (s : jsstring) : list jsstring := split_go false [] s.

(** The character class [[.,;?!]]. *)
Definition is_punct (c : N) : bool :=
  (c =? 46)%N || (c =? 44)%N || (c =? 59)%N || (c =? 63)%N || (c =? 33)%N.

(** [/[.,;?!]$/.test(word)]: without the [m] flag [$] matches only at the
    end of the input, so the test looks at the last code unit. *)
Definition ends_with_punct (w : jsstring) : bool :=
  match rev w with
  | [] => false
  | c :: _ => is_punct c
  end.

(* ================================================================== *)
(** * Arrays *)
(* ================================================================== *)

(** The relative index of [Array.prototype.slice]: a negative argument
    counts from the end, and the result is clamped to [0, len]. *)
Definition rel_index (len i : Z) : Z :=
  if i <? 0 then Z.max (len + i) 0 else Z.min i len.

(** [l.slice(s, e)] and [l.slice(s)]. *)
Definition slice {A : Type} (l : list A) (s e : Z) : list A :=
  let len := Z.of_nat (length l) in
  let k := rel_index len s in
  let final := rel_index len e in
  firstn (Z.to_nat (final - k)) (skipn (Z.to_nat k) l).

Definition slice_from {A : Type} (l : list A) (s : Z) : list A :=
  slice l s (Z.of_nat (length l)).

(** [l[i]] for an integer [i]: [undefined] outside the array. *)
Definition item {A : Type} (l : list A) (i : Z) : option A :=
  if i <? 0 then None else nth_error l (Z.to_nat i).

(** The elements of [l] with their indices, counted from [i]: what the
    callback of [map((x, i) => ...)] receives. *)
Fixpoint indexed {A : Type} (i : Z) (l : list A) : list (Z * A) :=
  match l with
  | [] => []
  | x :: rest => (i, x) :: indexed (i + 1) rest
  end.

(** [strs.join(' ')]. *)
Fixpoint join_space (strs : list jsstring) : jsstring :=
  match strs with
  | [] => []
  | [x] => x
  | x :: rest => x ++ 32%N :: join_space rest
  end.

(* ================================================================== *)
(** * Data model ([types.ts]) *)
(* ================================================================== *)

Inductive HighlightMode : Type :=
| FIRST_LETTER
| FIRST_TWO
| FIRST_HALF
| ORP_OPTIMAL
| NONE.

Record WordToken : Type := mkToken {
  word : jsstring;
  originalIndex : Z;
  hasPunctuation : bool
}.

Record ReadingSession : Type := mkSession {
  id : Z;
  date : Z;
  wordsRead : Z;
  durationSeconds : JS.number;
  wpm : JS.number
}.

Record ReadingStats : Type := mkStats {
  totalWords : JS.number;
  totalTimeSeconds : JS.number;
  sessions : list ReadingSession
}.

Record HighlightRange : Type := mkRange {
  start : Z;
  end_ : Z;
  alignIndex : Z
}.

(* ================================================================== *)
(** * The text processor *)
(* ================================================================== *)

(** [rawWords.map((word, index) => ...)], from index [i] on. *)
Fixpoint map_tokens (i : Z) (rawWords : list jsstring) : list WordToken :=
  match rawWords with
  | [] => []
  | w :: rest =>
      {| word := w; originalIndex := i; hasPunctuation := ends_with_punct w |}
      :: map_tokens (i + 1) rest
  end.

Definition tokenizeText (text : jsstring) : list WordToken :=
  let rawWords := split_spaces (trim text) in
  map_tokens 0 rawWords.

(** [Math.ceil(len * 0.35) - 1], the binary64 product included. *)
Definition orp_product (len : Z) : JS.number :=
  JS.mul (JS.of_Z len) JS.lit_0_35.

Definition orpIndex (len : Z) : Z :=
  if len <=? 1 then 0 else JS.ceil_Z (orp_product len) - 1.

(** [len / 2] is exact in binary64, so [Math.ceil(len / 2)] is
    [(len + 1) / 2] and [Math.floor(x / 2)] is the floor division of Z,
    also at [x = -1]. *)
Definition getHighlightRange (w : jsstring) (mode : HighlightMode)
  : HighlightRange :=
  let len := Z.of_nat (length w) in
  match mode with
  | FIRST_LETTER =>
      {| start := 0; end_ := 1; alignIndex := 0 |}
  | FIRST_TWO =>
      let e := Z.min 2 len in
      {| start := 0; end_ := e; alignIndex := if e =? 2 then 1 else 0 |}
  | FIRST_HALF =>
      let e := (len + 1) / 2 in
      {| start := 0; end_ := e; alignIndex := (e - 1) / 2 |}
  | ORP_OPTIMAL =>
      let i := orpIndex len in
      {| start := i; end_ := i + 1; alignIndex := i |}
  | NONE =>
      {| start := -1; end_ := -1; alignIndex := len / 2 |}
  end.

(** The text that [extractPdfText] builds from the text items of the
    pages (the strings [item.str] that the PDF library returns, page by
    page): the items of a page joined by a space, and a space after
    every page. *)
Definition extractPdfText (pages : list (list jsstring)) : jsstring :=
  fold_left (fun fullText items => fullText ++ (join_space items ++ [32%N]))
            pages [].

(* ================================================================== *)
(** * The upload guard ([FileUpload.processFile]) *)
(* ================================================================== *)

Inductive outcome (A : Type) : Type :=
| Loaded (a : A)
| Refused (message : string).
Arguments Loaded {A} a.
Arguments Refused {A} message.

(** What [processFile] does with the extracted text: an empty or blank
    text throws inside the [try] and ends as the error banner; any other
    text goes to [onTextLoaded], that is to [tokenizeText]. *)
Definition processFile (text : jsstring) : outcome (list WordToken) :=
  if (length text =? 0)%nat || (length (trim text) =? 0)%nat
  then Refused "Failed to process file. Please ensure it is a valid text, markdown, PDF, or Word document."
  else Loaded (tokenizeText text).

(* ================================================================== *)
(** * The reader ([Reader] component) *)
(* ================================================================== *)

Module Reader.

(** The component's state: the [useState] cells and the four refs. *)
Record state : Type := mkState {
  index : Z;
  isPlaying : bool;
  wpm : JS.number;
  sessionStartTimeRef : option Z;
  totalPauseDurationRef : Z;
  pauseStartTimeRef : option Z;
  timerRef : option positive
}.

Definition init (initialWpm : JS.number) : state :=
  {| index := 0; isPlaying := false; wpm := initialWpm;
     sessionStartTimeRef := None; totalPauseDurationRef := 0;
     pauseStartTimeRef := None; timerRef := None |}.

Definition emptyToken : WordToken :=
  {| word := []; originalIndex := 0; hasPunctuation := false |}.

(** [words[index] || { word: '', originalIndex: 0, hasPunctuation: false }] *)
Definition currentWordToken (words : list WordToken) (i : Z) : WordToken :=
  if i <? 0 then emptyToken
  else match nth_error words (Z.to_nat i) with
       | Some t => t
       | None => emptyToken
       end.

Definition baseDelay (wpm : JS.number) : JS.number :=
  JS.div (JS.of_Z 60000) wpm.

Definition getDelay (wpm : JS.number) (tok : WordToken) : JS.number :=
  if hasPunctuation tok then JS.mul (baseDelay wpm) JS.lit_1_5
  else if 10 <? Z.of_nat (length (word tok))
       then JS.mul (baseDelay wpm) JS.lit_1_3
       else baseDelay wpm.

Definition stopTimer (st : state) : state :=
  {| index := index st; isPlaying := isPlaying st; wpm := wpm st;
     sessionStartTimeRef := sessionStartTimeRef st;
     totalPauseDurationRef := totalPauseDurationRef st;
     pauseStartTimeRef := pauseStartTimeRef st;
     timerRef := None |}.

(** [startReading]; [now] is what [Date.now()] returns during the call
    and [handle] the identifier that [setTimeout] hands back. *)
Definition startReading (nwords : Z) (now : Z) (handle : positive)
           (st : state) : state :=
  if nwords <=? index st then st
  else
    let paused := JS.truthy (pauseStartTimeRef st) in
    {| index := index st; isPlaying := true; wpm := wpm st;
       sessionStartTimeRef :=
         if JS.truthy (sessionStartTimeRef st) then sessionStartTimeRef st
         else Some now;
       totalPauseDurationRef :=
         match pauseStartTimeRef st with
         | Some p => if paused then totalPauseDurationRef st + (now - p)
                     else totalPauseDurationRef st
         | None => totalPauseDurationRef st
         end;
       pauseStartTimeRef :=
         if paused then None else pauseStartTimeRef st;
       timerRef := Some handle |}.

Definition pauseReading (now : Z) (st : state) : state :=
  {| index := index st; isPlaying := false; wpm := wpm st;
     sessionStartTimeRef := sessionStartTimeRef st;
     totalPauseDurationRef := totalPauseDurationRef st;
     pauseStartTimeRef := Some now;
     timerRef := None |}.

(** The effect on [isPlaying] that tracks pauses made with the toggle:
    it records the start of a pause only when none is recorded yet and
    the session has started. *)
Definition pauseEffect (now : Z) (st : state) : state :=
  if negb (isPlaying st) && negb (JS.truthy (pauseStartTimeRef st))
     && JS.truthy (sessionStartTimeRef st)
  then {| index := index st; isPlaying := isPlaying st; wpm := wpm st;
          sessionStartTimeRef := sessionStartTimeRef st;
          totalPauseDurationRef := totalPauseDurationRef st;
          pauseStartTimeRef := Some now;
          timerRef := timerRef st |}
  else st.

(** The active duration in seconds that [handleFinish] computes. *)
Definition duration (endTime : Z) (st : state) : JS.number :=
  match sessionStartTimeRef st with
  | Some s =>
      if JS.truthy (sessionStartTimeRef st)
      then JS.div (JS.of_Z (endTime - s - totalPauseDurationRef st))
                  (JS.of_Z 1000)
      else JS.zero
  | None => JS.zero
  end.

(** [handleFinish]: the new state and the arguments given to [onFinish]. *)
Definition handleFinish (endTime : Z) (st : state)
  : state * (Z * JS.number * JS.number) :=
  let st' :=
    {| index := index st; isPlaying := false; wpm := wpm st;
       sessionStartTimeRef := sessionStartTimeRef st;
       totalPauseDurationRef := totalPauseDurationRef st;
       pauseStartTimeRef := pauseStartTimeRef st;
       timerRef := None |} in
  (st', (index st + 1, duration endTime st, wpm st)).

(** The setters of the three [useState] cells. *)
Definition setIndex (i : Z) (st : state) : state :=
  {| index := i; isPlaying := isPlaying st; wpm := wpm st;
     sessionStartTimeRef := sessionStartTimeRef st;
     totalPauseDurationRef := totalPauseDurationRef st;
     pauseStartTimeRef := pauseStartTimeRef st;
     timerRef := timerRef st |}.

Definition setIsPlaying (b : bool) (st : state) : state :=
  {| index := index st; isPlaying := b; wpm := wpm st;
     sessionStartTimeRef := sessionStartTimeRef st;
     totalPauseDurationRef := totalPauseDurationRef st;
     pauseStartTimeRef := pauseStartTimeRef st;
     timerRef := timerRef st |}.

Definition setWpm (w : JS.number) (st : state) : state :=
  {| index := index st; isPlaying := isPlaying st; wpm := w;
     sessionStartTimeRef := sessionStartTimeRef st;
     totalPauseDurationRef := totalPauseDurationRef st;
     pauseStartTimeRef := pauseStartTimeRef st;
     timerRef := timerRef st |}.

(** The callback of the timer: the updater given to [setIndex], with the
    call of [handleFinish] it makes on the last word.  The second
    component is what [onFinish] receives, if it is called. *)
Definition advance (nwords endTime : Z) (st : state)
  : state * option (Z * JS.number * JS.number) :=
  let next := index st + 1 in
  if nwords <=? next
  then (fst (handleFinish endTime st), Some (snd (handleFinish endTime st)))
  else (setIndex next st, None).

(** What the component binds to the keyboard, to its buttons and sliders
    and to its timer.  [startReading] and [pauseReading] are bound to
    nothing.  [SlideWpm] carries [Number(e.target.value)]; [EffectPause]
    is a run of the effect on [isPlaying] and [TimerFired] a run of the
    timer callback, both with the reading of the clock. *)
Inductive event : Type :=
| KeySpace
| KeyArrowUp
| KeyArrowDown
| KeyArrowLeft
| KeyArrowRight
| ClickRewind10
| ClickBack5
| ClickPlay
| ClickForward5
| SlideWpm (value : JS.number)
| EffectPause (now : Z)
| TimerFired (now : Z).

(** The state after an event.  The timer handle is left as it is, except
    by [handleFinish]: re-arming the timer is not part of this function. *)
Definition handle (nwords : Z) (ev : event) (st : state) : state :=
  match ev with
  | KeySpace | ClickPlay => setIsPlaying (negb (isPlaying st)) st
  | KeyArrowUp =>
      setWpm (JS.Math_min (JS.add (wpm st) (JS.of_Z 50)) (JS.of_Z 2000)) st
  | KeyArrowDown =>
      setWpm (JS.Math_max (JS.sub (wpm st) (JS.of_Z 50)) (JS.of_Z 100)) st
  | KeyArrowLeft => setIndex (Z.max (index st - 10) 0) st
  | KeyArrowRight => setIndex (Z.min (index st + 10) (nwords - 1)) st
  | ClickRewind10 => setIndex (Z.max 0 (index st - 10)) st
  | ClickBack5 => setIndex (Z.max 0 (index st - 5)) st
  | ClickForward5 => setIndex (Z.min (nwords - 1) (index st + 5)) st
  | SlideWpm value => setWpm value st
  | EffectPause now => pauseEffect now st
  | TimerFired now => fst (advance nwords now st)
  end.

Definition run (nwords : Z) (evs : list event) (st : state) : state :=
  fold_left (fun s ev => handle nwords ev s) evs st.

(** The timer firing at the instants [times], one after the other: the
    final state and what [onFinish] received, in order. *)
Fixpoint ticks (nwords : Z) (times : list Z) (st : state)
  : state * list (Z * JS.number * JS.number) :=
  match times with
  | [] => (st, [])
  | t :: rest =>
      let '(st', report) := advance nwords t st in
      let '(st'', reports) := ticks nwords rest st' in
      (st'', match report with
             | Some r => r :: reports
             | None => reports
             end)
  end.

(** [renderWord]: whether the character at index [i] is highlighted. *)
Definition isHighlighted (mode : HighlightMode) (r : HighlightRange) (i : Z)
  : bool :=
  match mode with
  | NONE => false
  | ORP_OPTIMAL => i =? start r
  | _ => (start r <=? i) && (i <? end_ r)
  end.

(** The characters of the word, each with its highlighting, and the three
    groups in which [renderWord] lays them out around the pivot. *)
Record rendered : Type := mkRendered {
  leftChars : list (N * bool);
  centerChar : option (N * bool);
  rightChars : list (N * bool)
}.

Definition renderChars (w : jsstring) (mode : HighlightMode)
  : list (N * bool) :=
  let r := getHighlightRange w mode in
  map (fun p => (snd p, isHighlighted mode r (fst p))) (indexed 0 w).

Definition renderWord (w : jsstring) (mode : HighlightMode) : rendered :=
  let r := getHighlightRange w mode in
  let chars := renderChars w mode in
  {| leftChars := slice chars 0 (alignIndex r);
     centerChar := item chars (alignIndex r);
     rightChars := slice_from chars (alignIndex r + 1) |}.

End Reader.

(* ================================================================== *)
(** * The application ([App.handleReadingFinish]) *)
(* ================================================================== *)

(** Only significant sessions are recorded.  [now] is [Date.now()], read
    for the identifier and the date of the record.  The totals are
    numbers: both are added in binary64. *)
Definition significant (wordsRead_ : Z) (duration : JS.number) : bool :=
  JS.gt duration (JS.of_Z 10) || (50 <? wordsRead_).

Definition newSession (now wordsRead_ : Z) (duration finalWpm : JS.number)
  : ReadingSession :=
  {| id := now; date := now; wordsRead := wordsRead_;
     durationSeconds := JS.round duration; wpm := finalWpm |}.

Definition handleReadingFinish (now : Z) (stats : ReadingStats)
           (wordsRead_ : Z) (duration finalWpm : JS.number) : ReadingStats :=
  if significant wordsRead_ duration then
    {| totalWords := JS.add (totalWords stats) (JS.of_Z wordsRead_);
       totalTimeSeconds := JS.add (totalTimeSeconds stats) (JS.round duration);
       sessions := sessions stats
                   ++ [newSession now wordsRead_ duration finalWpm] |}
  else stats.

(** The statistics before any session: the initial value of the [stats]
    cell. *)
Definition emptyStats : ReadingStats :=
  {| totalWords := JS.of_Z 0; totalTimeSeconds := JS.of_Z 0; sessions := [] |}.

(** A finished session as [onFinish] passes it on, with the reading of
    the clock at that moment. *)
Record finished : Type := mkFinished {
  finishedAt : Z;
  finishedWords : Z;
  finishedDuration : JS.number;
  finishedWpm : JS.number
}.

Definition finishAll (fs : list finished) (stats : ReadingStats)
  : ReadingStats :=
  fold_left
    (fun st f => handleReadingFinish (finishedAt f) st (finishedWords f)
                   (finishedDuration f) (finishedWpm f))
    fs stats.

(* ================================================================== *)
(** * The statistics view ([Stats] component) *)
(* ================================================================== *)

Module StatsView.

Definition sessionWpm (s : ReadingSession) : JS.number := wpm s.

(** A bar of the chart; [name] is the number [n] of the label [Sess n]. *)
Record bar : Type := mkBar {
  name : Z;
  wpm : JS.number;
  words : Z
}.

(** [stats.sessions.slice(-10).map((s, i) => ...)] *)
Definition chartData (stats : ReadingStats) : list bar :=
  map (fun p => {| name := fst p + 1; wpm := sessionWpm (snd p);
                   words := wordsRead (snd p) |})
      (indexed 0 (slice_from (sessions stats) (-10))).

End StatsView.


(* ================================================================== *)
(** * Notions used in the statements *)
(* ================================================================== *)

(** A text is blank when it has no code unit outside [\s]. *)
Definition blank (s : jsstring) : bool := forallb is_space s.

(** The last code unit, if any, is not white space. *)
Fixpoint last_ok (s : jsstring) : bool :=
  match s with
  | [] => true
  | c :: rest =>
      match rest with
      | [] => negb (is_space c)
      | _ :: _ => last_ok rest
      end
  end.

(** When the pieces of a split cannot be empty. *)
Definition start_ok (in_sep : bool) (cur s : jsstring) : Prop :=
  cur <> [] \/
  match s with
  | [] => False
  | c :: _ => in_sep = true \/ is_space c = false
  end.

(** The ceiling of the rational [a / b]. *)
Definition ceil_div (a b : Z) : Z := - ((- a) / b).

(** Round to nearest, ties to even, of [M / 2^n] for [M >= 0]. *)
Definition rne (M n : Z) : Z :=
  let q := M / 2 ^ n in
  let r := M mod 2 ^ n in
  match 2 * r ?= 2 ^ n with
  | Lt => q
  | Gt => q + 1
  | Eq => if Z.even q then q else q + 1
  end.

(** The mantissa of the literal [0.35]: [20 * c035 = 7 * 2^54 - 8], so
    the literal lies [2^-52 / 10] below 35/100. *)
Definition c035 : positive := 6305039478318694%positive.

(** The multiplier of the base delay that the spec names for a token:
    1.5 after trailing punctuation, else 1.3 for a word of more than ten
    characters, else 1. *)
Definition delayMultiplier (tok : WordToken) : JS.number :=
  if hasPunctuation tok then JS.lit_1_5
  else if 10 <? Z.of_nat (length (word tok)) then JS.lit_1_3
  else JS.of_Z 1.

(** The words of a text as the spec describes them: the maximal runs of
    code units that are not white space, in order.  [cur] is the run being
    read, reversed. *)
Definition emit (cur : jsstring) : list jsstring :=
  match cur with
  | [] => []
  | _ :: _ => [rev cur]
  end.

Fixpoint words_go (cur : jsstring) (s : jsstring) : list jsstring :=
  match s with
  | [] => emit cur
  | c :: rest =>
      if is_space c then emit cur ++ words_go [] rest
      else words_go (c :: cur) rest
  end.

Definition words_of (s : jsstring) : list jsstring := words_go [] s.

Definition not_space (c : N) : bool := negb (is_space c).



(** The integers from [lo], [n] of them. *)
Definition Z_range (lo : Z) (n : nat) : list Z :=
  map (fun k => lo + Z.of_nat k) (seq 0 n).

(** The value of a canonical positive binary64 number, against the
    rational [num / den]: equal to it, or at most half a unit in the last
    place away from it. *)
Definition exactly (x : JS.number) (num den : Z) : Prop :=
  valid_binary JS.prec JS.emax x = true
  /\ match x with
     | S754_finite false m e =>
         den * Z.pos m * 2 ^ Z.max e 0 = num * 2 ^ Z.max (- e) 0
     | _ => False
     end.

Definition nearest_to (x : JS.number) (num den : Z) : Prop :=
  valid_binary JS.prec JS.emax x = true
  /\ match x with
     | S754_finite false m e =>
         2 * Z.abs (den * Z.pos m * 2 ^ Z.max e 0 - num * 2 ^ Z.max (- e) 0)
         <= den * 2 ^ Z.max e 0
     | _ => False
     end.






(* ================================================================== *)
(** * Binary64 rounding, as far as the reader needs it *)
(* ================================================================== *)

Module Binary64.

Import JS.

Lemma digits_bounds (p : positive) :
  2 ^ (Z.pos (digits2_pos p) - 1) <= Z.pos p < 2 ^ Z.pos (digits2_pos p).
Proof.
  induction p as [p IH | p IH | ]; cbn [digits2_pos].
  - rewrite Pos2Z.inj_succ, (Pos2Z.inj_xI p).
    replace (Z.succ (Z.pos (digits2_pos p)) - 1)
      with (Z.succ (Z.pos (digits2_pos p) - 1)) by lia.
    rewrite !Z.pow_succ_r by lia. lia.
  - rewrite Pos2Z.inj_succ, (Pos2Z.inj_xO p).
    replace (Z.succ (Z.pos (digits2_pos p)) - 1)
      with (Z.succ (Z.pos (digits2_pos p) - 1)) by lia.
    rewrite !Z.pow_succ_r by lia. lia.
  - cbn. lia.
Qed.

Lemma digits_unique (p : positive) (k : Z) :
  2 ^ (k - 1) <= Z.pos p < 2 ^ k -> Z.pos (digits2_pos p) = k.
Proof.
  intros [Hlo Hhi].
  pose proof (digits_bounds p) as [Dlo Dhi].
  set (d := Z.pos (digits2_pos p)) in *.
  assert (0 < d) by (subst d; lia).
  destruct (Z.lt_trichotomy d k) as [Hlt | [Heq | Hgt]]; [ | exact Heq | ].
  - exfalso.
    assert (2 ^ d <= 2 ^ (k - 1)) by (apply Z.pow_le_mono_r; lia). lia.
  - exfalso.
    destruct (Z.le_gt_cases 0 k) as [Hk | Hk].
    + assert (2 ^ k <= 2 ^ (d - 1)) by (apply Z.pow_le_mono_r; lia). lia.
    + rewrite (Z.pow_neg_r 2 k) in Hhi by lia. lia.
Qed.

Lemma iter_pos_nat {A : Type} (f : A -> A) (p : positive) (x : A) :
  iter_pos f p x = Nat.iter (Pos.to_nat p) f x.
Proof.
  revert x. induction p as [p IH | p IH | ]; intro x; cbn [iter_pos].
  - rewrite !IH, Pos2Nat.inj_xI.
    replace (S (2 * Pos.to_nat p)) with (Pos.to_nat p + S (Pos.to_nat p))%nat by lia.
    rewrite Nat.iter_add, Nat.iter_succ_r. reflexivity.
  - rewrite !IH, Pos2Nat.inj_xO.
    replace (2 * Pos.to_nat p)%nat with (Pos.to_nat p + Pos.to_nat p)%nat by lia.
    rewrite Nat.iter_add. reflexivity.
  - reflexivity.
Qed.

Lemma shr_1_nonneg (m : Z) (r s : bool) :
  0 <= m ->
  shr_1 {| shr_m := m; shr_r := r; shr_s := s |}
  = {| shr_m := m / 2; shr_r := Z.odd m; shr_s := r || s |}.
Proof.
  intros Hm. destruct m as [ | p | p ]; [ reflexivity | | lia ].
  destruct p as [p | p | ]; cbn [shr_1 Z.odd].
  - replace (Z.pos p~1 / 2) with (Z.pos p); [ reflexivity | ].
    rewrite (Pos2Z.inj_xI p). apply Z.div_unique with (r := 1); lia.
  - replace (Z.pos p~0 / 2) with (Z.pos p); [ reflexivity | ].
    rewrite (Pos2Z.inj_xO p). apply Z.div_unique with (r := 0); lia.
  - reflexivity.
Qed.

Lemma iter_shr_1 (n : nat) (M : Z) :
  0 <= M ->
  Nat.iter (S n) shr_1 {| shr_m := M; shr_r := false; shr_s := false |}
  = {| shr_m := M / 2 ^ (Z.of_nat n + 1);
       shr_r := Z.odd (M / 2 ^ Z.of_nat n);
       shr_s := negb (M mod 2 ^ Z.of_nat n =? 0) |}.
Proof.
  intros HM. induction n as [ | n IH ].
  - cbn [Nat.iter]. rewrite shr_1_nonneg by assumption.
    change (Z.of_nat 0) with 0. rewrite Z.pow_0_r, Z.div_1_r, Z.mod_1_r.
    reflexivity.
  - change (Nat.iter (S (S n)) shr_1 ?x) with (shr_1 (Nat.iter (S n) shr_1 x)).
    rewrite IH.
    assert (Hp : 0 < 2 ^ Z.of_nat n) by (apply Z.pow_pos_nonneg; lia).
    rewrite shr_1_nonneg by (apply Z.div_pos; [ assumption | apply Z.pow_pos_nonneg; lia ]).
    rewrite Nat2Z.inj_succ.
    replace (Z.succ (Z.of_nat n)) with (Z.of_nat n + 1) by lia.
    f_equal.
    + rewrite Z.div_div by lia.
      rewrite (Z.pow_add_r 2 (Z.of_nat n + 1) 1) by lia. reflexivity.
    + rewrite (Z.pow_add_r 2 (Z.of_nat n) 1) by lia.
      change (2 ^ 1) with 2.
      rewrite Z.rem_mul_r by lia.
      rewrite (Zmod_odd (M / 2 ^ Z.of_nat n)).
      pose proof (Z.mod_pos_bound M (2 ^ Z.of_nat n) Hp) as Hb.
      destruct (Z.odd (M / 2 ^ Z.of_nat n)); cbn [orb].
      * symmetry. apply negb_true_iff, Z.eqb_neq. lia.
      * f_equal. f_equal. lia.
Qed.

Lemma shr_exact (M e n : Z) :
  0 <= M -> 0 < n ->
  shr {| shr_m := M; shr_r := false; shr_s := false |} e n
  = ({| shr_m := M / 2 ^ n;
        shr_r := Z.odd (M / 2 ^ (n - 1));
        shr_s := negb (M mod 2 ^ (n - 1) =? 0) |}, e + n).
Proof.
  intros HM Hn. destruct n as [ | p | p ]; try lia.
  unfold shr. rewrite iter_pos_nat.
  destruct (Pos2Nat.is_succ p) as [k Hk]. rewrite Hk, iter_shr_1 by assumption.
  assert (Hz : Z.pos p = Z.of_nat k + 1) by lia.
  rewrite Hz. replace (Z.of_nat k + 1 - 1) with (Z.of_nat k) by lia.
  reflexivity.
Qed.

(** The two flags left by the shift tell where [M / 2^n] lies between
    its neighbours, so rounding on them is [rne]. *)
Lemma round_nearest_even_rne (M n : Z) :
  0 <= M -> 0 < n ->
  round_nearest_even (M / 2 ^ n)
    (loc_of_shr_record
       {| shr_m := M / 2 ^ n;
          shr_r := Z.odd (M / 2 ^ (n - 1));
          shr_s := negb (M mod 2 ^ (n - 1) =? 0) |})
  = rne M n.
Proof.
  intros HM Hn. unfold rne.
  assert (Hp : 0 < 2 ^ (n - 1)) by (apply Z.pow_pos_nonneg; lia).
  assert (H2 : 2 ^ n = 2 ^ (n - 1) * 2).
  { replace n with (n - 1 + 1) at 1 by lia.
    rewrite Z.pow_add_r by lia. reflexivity. }
  assert (Hr : M mod 2 ^ n
               = M mod 2 ^ (n - 1) + 2 ^ (n - 1) * ((M / 2 ^ (n - 1)) mod 2)).
  { rewrite H2. apply Z.rem_mul_r; lia. }
  rewrite (Zmod_odd (M / 2 ^ (n - 1))) in Hr.
  pose proof (Z.mod_pos_bound M (2 ^ (n - 1)) Hp) as Hb.
  destruct (Z.odd (M / 2 ^ (n - 1)));
    destruct (Z.eqb_spec (M mod 2 ^ (n - 1)) 0) as [Hz | Hz];
    cbn [negb loc_of_shr_record round_nearest_even];
    destruct (Z.compare_spec (2 * (M mod 2 ^ n)) (2 ^ n));
    try reflexivity; lia.
Qed.

Lemma shr_nonpos (mrs : shr_record) (e n : Z) :
  n <= 0 -> shr mrs e n = (mrs, e).
Proof. intros Hn. destruct n as [ | p | p ]; try reflexivity; lia. Qed.

Lemma rne_cases (M n : Z) :
  0 <= M -> 0 < n ->
  (rne M n = M / 2 ^ n /\ 2 * (M mod 2 ^ n) <= 2 ^ n)
  \/ (rne M n = M / 2 ^ n + 1 /\ 2 ^ n <= 2 * (M mod 2 ^ n)).
Proof.
  intros HM Hn. unfold rne.
  destruct (Z.compare_spec (2 * (M mod 2 ^ n)) (2 ^ n)).
  - destruct (Z.even (M / 2 ^ n)); [ left | right ]; lia.
  - left; lia.
  - right; lia.
Qed.

(** A mantissa that fits in 53 bits, at an exponent in the normal range,
    is left as it is. *)
Lemma round_aux_fits (sx : bool) (M : positive) (ex : Z) :
  Z.pos (digits2_pos M) <= 53 ->
  -1074 <= ex <= 971 ->
  binary_round_aux prec emax sx (Z.pos M) ex loc_Exact = S754_finite sx M ex.
Proof.
  intros Hd Hex. unfold binary_round_aux, shr_fexp.
  cbn [shr_record_of_loc Zdigits2].
  rewrite shr_nonpos by (unfold fexp, SpecFloat.emin, prec, emax; lia).
  cbn [shr_m loc_of_shr_record round_nearest_even shr_record_of_loc Zdigits2].
  rewrite shr_nonpos by (unfold fexp, SpecFloat.emin, prec, emax; lia).
  cbn [shr_m].
  replace (ex <=? emax - prec) with true
    by (symmetry; apply Z.leb_le; unfold prec, emax; lia).
  reflexivity.
Qed.

(** A longer mantissa is shifted right by [n = digits - 53] places and
    rounded to nearest, ties to even; when the rounding carries into a
    54th bit the mantissa is halved and the exponent raised. *)
Lemma round_aux_shift (sx : bool) (M : positive) (ex n : Z) :
  n = Z.pos (digits2_pos M) - 53 ->
  0 < n ->
  -1074 <= ex + n -> ex + n < 971 ->
  exists m e,
    binary_round_aux prec emax sx (Z.pos M) ex loc_Exact = S754_finite sx m e
    /\ ((e = ex + n /\ Z.pos m = rne (Z.pos M) n)
        \/ (e = ex + n + 1 /\ 2 * Z.pos m = rne (Z.pos M) n)).
Proof.
  intros Hn Hpos Hlo Hhi.
  pose proof (digits_bounds M) as [Dlo Dhi].
  assert (Hpn : 0 < 2 ^ n) by (apply Z.pow_pos_nonneg; lia).
  assert (Hsplit : 2 ^ Z.pos (digits2_pos M) = 2 ^ 53 * 2 ^ n).
  { replace (Z.pos (digits2_pos M)) with (53 + n) by lia.
    apply Z.pow_add_r; lia. }
  assert (Hsplit' : 2 ^ (Z.pos (digits2_pos M) - 1) = 2 ^ 52 * 2 ^ n).
  { replace (Z.pos (digits2_pos M) - 1) with (52 + n) by lia.
    apply Z.pow_add_r; lia. }
  assert (Hq : 2 ^ 52 <= Z.pos M / 2 ^ n < 2 ^ 53).
  { split.
    - apply Z.div_le_lower_bound; lia.
    - apply Z.div_lt_upper_bound; lia. }
  unfold binary_round_aux, shr_fexp.
  cbn [shr_record_of_loc Zdigits2].
  replace (fexp prec emax (Z.pos (digits2_pos M) + ex) - ex) with n
    by (unfold fexp, SpecFloat.emin, prec, emax; lia).
  rewrite shr_exact by lia.
  cbn [shr_m].
  rewrite round_nearest_even_rne by lia.
  destruct (rne_cases (Z.pos M) n) as [[Hr _] | [Hr _]]; try lia.
  - (* rounded down: still 53 bits *)
    destruct (rne (Z.pos M) n) as [ | q | q ] eqn:Eq; try lia.
    assert (Hdq : Z.pos (digits2_pos q) = 53)
      by (apply digits_unique; change (53 - 1) with 52; lia).
    cbn [shr_record_of_loc Zdigits2]. rewrite Hdq.
    rewrite shr_nonpos by (unfold fexp, SpecFloat.emin, prec, emax; lia).
    cbn [shr_m].
    replace (ex + n <=? emax - prec) with true
      by (symmetry; apply Z.leb_le; unfold prec, emax; lia).
    exists q, (ex + n). split; [ reflexivity | left; split; reflexivity ].
  - destruct (Z.eq_dec (Z.pos M / 2 ^ n + 1) (2 ^ 53)) as [Hc | Hc].
    + (* rounded up into a 54th bit *)
      rewrite Hr, Hc.
      change (2 ^ 53) with (Z.pos (2 ^ 53)%positive).
      cbn [shr_record_of_loc Zdigits2].
      replace (fexp prec emax (Z.pos (digits2_pos (2 ^ 53)) + (ex + n)) - (ex + n))
        with 1
        by (change (Z.pos (digits2_pos (2 ^ 53))) with 54;
            unfold fexp, SpecFloat.emin, prec, emax; lia).
      cbn [shr iter_pos shr_1 shr_m].
      replace (ex + n + 1 <=? emax - prec) with true
        by (symmetry; apply Z.leb_le; unfold prec, emax; lia).
      eexists _, (ex + n + 1). split; [ reflexivity | right; split; reflexivity ].
    + destruct (rne (Z.pos M) n) as [ | q | q ] eqn:Eq; try lia.
      assert (Hdq : Z.pos (digits2_pos q) = 53)
        by (apply digits_unique; change (53 - 1) with 52; lia).
      cbn [shr_record_of_loc Zdigits2]. rewrite Hdq.
      rewrite shr_nonpos by (unfold fexp, SpecFloat.emin, prec, emax; lia).
      cbn [shr_m].
      replace (ex + n <=? emax - prec) with true
        by (symmetry; apply Z.leb_le; unfold prec, emax; lia).
      exists q, (ex + n). split; [ reflexivity | left; split; reflexivity ].
Qed.

Lemma iter_xO (m d : positive) :
  Z.pos (Pos.iter xO m d) = Z.pos m * 2 ^ Z.pos d.
Proof.
  induction d as [ | d IH ] using Pos.peano_ind.
  - cbn [Pos.iter]. rewrite (Pos2Z.inj_xO m). change (2 ^ 1) with 2. lia.
  - rewrite Pos.iter_succ, (Pos2Z.inj_xO (Pos.iter xO m d)), IH.
    rewrite Pos2Z.inj_succ, Z.pow_succ_r by lia. lia.
Qed.

(** Integers below 2^53 are binary64 values: [of_Z] only normalises the
    mantissa to 53 bits. *)
Lemma of_Z_pos (l : positive) :
  Z.pos (digits2_pos l) <= 53 ->
  exists m j,
    of_Z (Z.pos l) = S754_finite false m (- j)
    /\ 0 <= j <= 52
    /\ Z.pos m = Z.pos l * 2 ^ j
    /\ Z.pos (digits2_pos m) = 53.
Proof.
  intros Hd. pose proof (digits_bounds l) as [Dlo Dhi].
  unfold of_Z, binary_normalize, binary_round, shl_align.
  replace (fexp prec emax (Z.pos (digits2_pos l) + 0))
    with (Z.pos (digits2_pos l) - 53)
    by (unfold fexp, SpecFloat.emin, prec, emax; lia).
  destruct (Z.pos (digits2_pos l) - 53 - 0) as [ | d | d ] eqn:E; try lia.
  - rewrite round_aux_fits by lia.
    exists l, 0. change (- 0) with 0. repeat split; lia.
  - assert (Hm : Z.pos (digits2_pos (Pos.iter xO l d)) = 53).
    { apply digits_unique. rewrite iter_xO.
      assert (Hs : 2 ^ Z.pos (digits2_pos l) * 2 ^ Z.pos d = 2 ^ 53).
      { rewrite <- Z.pow_add_r by lia. f_equal. lia. }
      assert (Hs' : 2 ^ (Z.pos (digits2_pos l) - 1) * 2 ^ Z.pos d = 2 ^ (53 - 1)).
      { rewrite <- Z.pow_add_r by lia. f_equal. lia. }
      assert (0 < 2 ^ Z.pos d) by (apply Z.pow_pos_nonneg; lia).
      rewrite <- Hs, <- Hs'. split.
      - apply Z.mul_le_mono_nonneg_r; lia.
      - apply Z.mul_lt_mono_pos_r; lia. }
    rewrite round_aux_fits by lia.
    exists (Pos.iter xO l d), (Z.pos d).
    replace (Z.pos (digits2_pos l) - 53) with (- Z.pos d) by lia.
    repeat split; try lia. apply iter_xO.
Qed.

Lemma ceil_Z_finite (m : positive) (e c : Z) :
  e < 0 ->
  (c - 1) * 2 ^ (- e) < Z.pos m <= c * 2 ^ (- e) ->
  ceil_Z (S754_finite false m e) = c.
Proof.
  intros He [Hlo Hhi]. unfold ceil_Z, signed.
  replace (0 <=? e) with false by (symmetry; apply Z.leb_gt; lia).
  assert (Hp : 0 < 2 ^ (- e)) by (apply Z.pow_pos_nonneg; lia).
  rewrite <- (Z.div_unique (- Z.pos m) (2 ^ (- e)) (- c) (c * 2 ^ (- e) - Z.pos m));
    lia.
Qed.

End Binary64.

(* ================================================================== *)
(** * The product [len * 0.35] *)
(* ================================================================== *)

Section OrpProduct.

Import JS Binary64.

(** The literals are canonical binary64 numbers, and the nearest ones to
    35/100, 3/2 and 13/10: the distance is at most half a unit in the
    last place. *)
Lemma literals_nearest :
  valid_binary prec emax lit_0_35 = true
  /\ 2 * Z.abs (100 * 6305039478318694 - 35 * 2 ^ 54) <= 100
  /\ valid_binary prec emax lit_1_5 = true
  /\ 2 * 6755399441055744 = 3 * 2 ^ 52
  /\ valid_binary prec emax lit_1_3 = true
  /\ 2 * Z.abs (10 * 5854679515581645 - 13 * 2 ^ 52) <= 10.
Proof. vm_compute. repeat split; discriminate. Qed.

Lemma orp_product_rounded (l : positive) :
  Z.pos (digits2_pos l) <= 53 ->
  exists j n m e,
    orp_product (Z.pos l) = S754_finite false m e
    /\ 0 <= j /\ (n = 52 \/ n = 53)
    /\ 2 ^ 52 <= Z.pos l * 2 ^ j < 2 ^ 53
    /\ ((e = n - j - 54
         /\ Z.pos m = rne (Z.pos l * 2 ^ j * Z.pos c035) n)
        \/ (e = n - j - 53
            /\ 2 * Z.pos m = rne (Z.pos l * 2 ^ j * Z.pos c035) n)).
Proof.
  intros Hd. destruct (of_Z_pos l Hd) as (m0 & j & Hof & [Hj Hj'] & Hm0 & Hd0).
  unfold orp_product, mul. rewrite Hof. unfold lit_0_35. cbn [SFmul xorb].
  fold c035.
  pose proof (digits_bounds m0) as Hb0. rewrite Hd0 in Hb0.
  change (53 - 1) with 52 in Hb0.
  pose proof (digits_bounds (m0 * c035)) as Hb. rewrite Pos2Z.inj_mul in Hb.
  assert (HM : 2 ^ 104 <= Z.pos m0 * Z.pos c035 < 2 ^ 106).
  { assert (2 ^ 52 * Z.pos c035 <= Z.pos m0 * Z.pos c035)
      by (apply Z.mul_le_mono_nonneg_r; lia).
    assert (Z.pos m0 * Z.pos c035 < 2 ^ 53 * Z.pos c035)
      by (apply Z.mul_lt_mono_pos_r; lia).
    unfold c035 in *. lia. }
  set (d := Z.pos (digits2_pos (m0 * c035))) in *.
  assert (Hdd : d = 105 \/ d = 106).
  { destruct (Z.le_gt_cases d 104) as [H1 | H1].
    - assert (2 ^ d <= 2 ^ 104) by (apply Z.pow_le_mono_r; lia). lia.
    - destruct (Z.le_gt_cases d 106) as [H2 | H2]; [ lia | ].
      assert (2 ^ 106 <= 2 ^ (d - 1)) by (apply Z.pow_le_mono_r; lia). lia. }
  destruct (round_aux_shift false (m0 * c035) (- j + -54) (d - 53))
    as (m & e & Hr & Hcases); try (subst d; lia).
  exists j, (d - 53), m, e. rewrite Hr.
  rewrite Pos2Z.inj_mul, Hm0 in Hcases.
  split; [ reflexivity | ].
  split; [ assumption | ].
  split; [ lia | ].
  split; [ lia | ].
  destruct Hcases as [[He Hv] | [He Hv]]; [ left | right ]; split; (lia || exact Hv).
Qed.

(** The code's [Math.ceil(len * 0.35)] is the ceiling of [7 * len / 20]
    for every length below 2^48. *)
Lemma orp_ceil (len : Z) :
  0 < len < 2 ^ 48 ->
  ceil_Z (orp_product len) = (7 * len + 19) / 20.
Proof.
  intros [Hlen Hmax]. destruct len as [ | l | l ]; try lia.
  assert (Hd : Z.pos (digits2_pos l) <= 53).
  { pose proof (digits_bounds l) as [Dlo _].
    destruct (Z.le_gt_cases (Z.pos (digits2_pos l)) 53) as [H | H]; [ exact H | ].
    assert (2 ^ 53 <= 2 ^ (Z.pos (digits2_pos l) - 1))
      by (apply Z.pow_le_mono_r; lia). lia. }
  destruct (orp_product_rounded l Hd)
    as (j & n & m & e & Hprod & Hj & Hn & HX & Hcases).
  rewrite Hprod.
  set (N := (7 * Z.pos l + 19) / 20).
  assert (HN : 20 * N <= 7 * Z.pos l + 19 < 20 * N + 20).
  { pose proof (Z.div_mod (7 * Z.pos l + 19) 20 ltac:(lia)) as E.
    pose proof (Z.mod_pos_bound (7 * Z.pos l + 19) 20 ltac:(lia)) as B.
    fold N in E. lia. }
  assert (HJ : 0 < 2 ^ j) by (apply Z.pow_pos_nonneg; lia).
  set (J := 2 ^ j) in *.
  set (X := Z.pos l * J) in *.
  assert (HXJ : X < 2 ^ 48 * J) by (apply Z.mul_lt_mono_pos_r; lia).
  assert (HY1 : 20 * N * J <= (7 * Z.pos l + 19) * J)
    by (apply Z.mul_le_mono_nonneg_r; lia).
  assert (HY2 : 7 * Z.pos l * J <= 20 * N * J)
    by (apply Z.mul_le_mono_nonneg_r; lia).
  replace ((7 * Z.pos l + 19) * J) with (7 * X + 19 * J) in HY1
    by (unfold X; ring).
  replace (7 * Z.pos l * J) with (7 * X) in HY2 by (unfold X; ring).
  replace (20 * N * J) with (20 * (N * J)) in HY1, HY2 by ring.
  set (Y := N * J) in *.
  set (M := X * Z.pos c035) in *.
  assert (HM : 20 * M = (7 * 2 ^ 54 - 8) * X) by (unfold M, c035; lia).
  assert (Hpn : 0 < 2 ^ n) by (apply Z.pow_pos_nonneg; lia).
  pose proof (Z.div_mod M (2 ^ n) ltac:(lia)) as HDM.
  pose proof (Z.mod_pos_bound M (2 ^ n) Hpn) as HRB.
  assert (HM0 : 0 <= M) by lia.
  assert (Hrne : (N - 1) * (J * 2 ^ (54 - n)) < rne M n
                 <= N * (J * 2 ^ (54 - n))).
  { replace ((N - 1) * (J * 2 ^ (54 - n))) with ((Y - J) * 2 ^ (54 - n))
      by (unfold Y; ring).
    replace (N * (J * 2 ^ (54 - n))) with (Y * 2 ^ (54 - n))
      by (unfold Y; ring).
    destruct (rne_cases M n) as [[Hq _] | [Hq Hhalf]]; try lia; rewrite Hq;
      clear Hq; set (q := M / 2 ^ n) in *; set (r := M mod 2 ^ n) in *;
      clearbody q r M Y X J N;
      destruct Hn; subst n;
      [ change (2 ^ (54 - 52)) with 4 | change (2 ^ (54 - 53)) with 2
      | change (2 ^ (54 - 52)) with 4 | change (2 ^ (54 - 53)) with 2 ];
      lia. }
  assert (HJpow : forall k, 0 <= k -> 2 ^ (j + k) = J * 2 ^ k)
    by (intros k Hk; apply Z.pow_add_r; lia).
  assert (Hj1 : 1 <= j).
  { destruct (Z.le_gt_cases 1 j) as [H | H]; [ exact H | ].
    assert (j = 0) by lia. subst j. change (2 ^ 0) with 1 in J.
    subst J. lia. }
  destruct Hcases as [[He Hv] | [He Hv]].
  - apply ceil_Z_finite; [ lia | ].
    replace (- e) with (j + (54 - n)) by lia.
    rewrite HJpow by lia. rewrite Hv. exact Hrne.
  - apply ceil_Z_finite; [ lia | ].
    assert (H2 : J * 2 ^ (54 - n) = 2 * 2 ^ (- e)).
    { replace (- e) with (j + (53 - n)) by lia.
      rewrite HJpow by lia.
      replace (54 - n) with (1 + (53 - n)) by lia.
      rewrite (Z.pow_add_r 2 1 (53 - n)) by lia.
      change (2 ^ 1) with 2. ring. }
    rewrite H2 in Hrne. lia.
Qed.

End OrpProduct.

(* ================================================================== *)
(** * The tokenizer *)
(* ================================================================== *)

Section Tokenizer.

Lemma drop_spaces_blank (s : jsstring) :
  blank s = true -> drop_spaces s = [].
Proof.
  induction s as [ | c s IH ]; cbn; [ reflexivity | ].
  destruct (is_space c); cbn; [ exact IH | discriminate ].
Qed.

Lemma drop_spaces_nil (s : jsstring) :
  drop_spaces s = [] -> blank s = true.
Proof.
  induction s as [ | c s IH ]; cbn; [ reflexivity | ].
  destruct (is_space c); cbn; [ exact IH | discriminate ].
Qed.

Lemma drop_spaces_head (s : jsstring) (c : N) (t : jsstring) :
  drop_spaces s = c :: t -> is_space c = false.
Proof.
  induction s as [ | a s IH ]; cbn; [ discriminate | ].
  destruct (is_space a) eqn:Ea; [ exact IH | ].
  intros H. injection H as -> _. exact Ea.
Qed.

Lemma drop_spaces_suffix (s : jsstring) :
  exists pre, s = pre ++ drop_spaces s /\ blank pre = true.
Proof.
  induction s as [ | a s (pre & Hs & Hpre) ]; cbn.
  - exists []. split; reflexivity.
  - destruct (is_space a) eqn:Ea.
    + exists (a :: pre). split; [ cbn; f_equal; exact Hs | ].
      unfold blank in *. cbn. rewrite Ea. exact Hpre.
    + exists []. split; reflexivity.
Qed.

Lemma blank_app (s t : jsstring) : blank (s ++ t) = blank s && blank t.
Proof. apply forallb_app. Qed.

Lemma blank_rev (s : jsstring) : blank (rev s) = blank s.
Proof.
  induction s as [ | c s IH ]; [ reflexivity | ].
  cbn [rev]. rewrite blank_app, IH. unfold blank. cbn [forallb].
  rewrite andb_true_r. apply andb_comm.
Qed.

Lemma trim_blank (s : jsstring) : blank s = true -> trim s = [].
Proof. intros H. unfold trim. rewrite (drop_spaces_blank s H). reflexivity. Qed.

Lemma trim_not_blank (s : jsstring) : blank s = false -> trim s <> [].
Proof.
  intros Hs Ht. unfold trim in Ht.
  apply (f_equal (@rev N)) in Ht. rewrite rev_involutive in Ht. cbn in Ht.
  apply drop_spaces_nil in Ht. rewrite blank_rev in Ht.
  destruct (drop_spaces_suffix s) as (pre & E & Hpre).
  destruct (drop_spaces s) as [ | c t ] eqn:Ed.
  - apply drop_spaces_nil in Ed. congruence.
  - apply drop_spaces_head in Ed. cbn in Ht. rewrite Ed in Ht. discriminate.
Qed.

Lemma last_ok_snoc (s : jsstring) (c : N) :
  last_ok (s ++ [c]) = negb (is_space c).
Proof.
  induction s as [ | a s IH ]; [ reflexivity | ].
  cbn [app last_ok]. destruct (s ++ [c]) eqn:E; [ | exact IH ].
  destruct s; discriminate.
Qed.

Lemma trim_last_ok (s : jsstring) : last_ok (trim s) = true.
Proof.
  unfold trim. destruct (drop_spaces (rev (drop_spaces s))) as [ | c u ] eqn:E.
  - reflexivity.
  - cbn [rev]. rewrite last_ok_snoc.
    apply drop_spaces_head in E. rewrite E. reflexivity.
Qed.

Lemma trim_head (s : jsstring) (c : N) (t : jsstring) :
  trim s = c :: t -> is_space c = false.
Proof.
  unfold trim. intros H.
  destruct (drop_spaces_suffix (rev (drop_spaces s))) as (pre & E & _).
  apply (f_equal (@rev N)) in E. rewrite rev_involutive, rev_app_distr, H in E.
  cbn in E. eapply drop_spaces_head. exact E.
Qed.

Lemma split_go_pieces (s : jsstring) :
  forall in_sep cur,
    last_ok s = true -> start_ok in_sep cur s ->
    Forall (fun p => p <> []) (split_go in_sep cur s).
Proof.
  induction s as [ | c rest IH ]; intros in_sep cur Hlast Hstart.
  - destruct Hstart as [Hcur | []].
    constructor; [ | constructor ].
    intros E. apply (f_equal (@rev N)) in E. rewrite rev_involutive in E.
    exact (Hcur E).
  - cbn [split_go]. destruct (is_space c) eqn:Ec.
    + assert (Hrest : rest <> [] /\ last_ok rest = true).
      { cbn [last_ok] in Hlast. destruct rest.
        - rewrite Ec in Hlast. discriminate.
        - split; [ discriminate | exact Hlast ]. }
      destruct Hrest as [Hne Hl].
      assert (Hs' : forall cur', start_ok true cur' rest).
      { intros cur'. right. destruct rest; [ contradiction | left; reflexivity ]. }
      destruct in_sep.
      * apply IH; [ exact Hl | apply Hs' ].
      * destruct Hstart as [Hcur | [Hb | Hc]]; try congruence.
        constructor; [ | apply IH; [ exact Hl | apply Hs' ] ].
        intros E. apply (f_equal (@rev N)) in E. rewrite rev_involutive in E.
        exact (Hcur E).
    + apply IH.
      * cbn [last_ok] in Hlast. destruct rest; [ reflexivity | exact Hlast ].
      * left. discriminate.
Qed.

Lemma split_go_not_nil (s : jsstring) :
  forall in_sep cur, split_go in_sep cur s <> [].
Proof.
  induction s as [ | c rest IH ]; intros in_sep cur; cbn [split_go].
  - discriminate.
  - destruct (is_space c); [ destruct in_sep | ]; try apply IH. discriminate.
Qed.

Lemma map_tokens_length (l : list jsstring) :
  forall i, length (map_tokens i l) = length l.
Proof. induction l as [ | w l IH ]; intros i; cbn; [ | rewrite IH ]; reflexivity. Qed.

Lemma map_tokens_In (l : list jsstring) :
  forall i tok, In tok (map_tokens i l) ->
                In (word tok) l /\ hasPunctuation tok = ends_with_punct (word tok).
Proof.
  induction l as [ | w l IH ]; intros i tok; cbn [map_tokens In]; [ tauto | ].
  intros [<- | H].
  - cbn. split; [ left | ]; reflexivity.
  - destruct (IH _ _ H) as [H1 H2]. split; [ right | ]; assumption.
Qed.

Lemma is_punct_spec (c : N) :
  is_punct c = true <-> In c (lit ".,;?!").
Proof.
  unfold is_punct. cbn [lit In N_of_ascii]. rewrite !orb_true_iff, !N.eqb_eq.
  cbn. intuition congruence.
Qed.

Lemma ends_with_punct_spec (w : jsstring) :
  ends_with_punct w = true
  <-> exists pre c, w = pre ++ [c] /\ In c (lit ".,;?!").
Proof.
  unfold ends_with_punct. split.
  - destruct (rev w) as [ | c r ] eqn:E; [ discriminate | ].
    intros H. exists (rev r), c. split; [ | apply is_punct_spec; exact H ].
    rewrite <- (rev_involutive w), E. reflexivity.
  - intros (pre & c & -> & H). rewrite rev_app_distr. cbn.
    apply is_punct_spec. exact H.
Qed.

Lemma tokenizeText_length (text : jsstring) :
  (1 <= length (tokenizeText text))%nat.
Proof.
  unfold tokenizeText, split_spaces. rewrite map_tokens_length.
  pose proof (split_go_not_nil (trim text) false []) as H.
  destruct (split_go false [] (trim text)); [ contradiction | cbn; lia ].
Qed.

End Tokenizer.

(** ** Claims about the tokenizer *)

(** C10.  For every input, blank or not, [tokenizeText] returns at least
    one token; on a blank input (empty, or white space only) it returns
    exactly one token, with the empty string as its text, [originalIndex]
    0 and no trailing punctuation. *)
Theorem tokenizeText_at_least_one (text : jsstring) :
  (1 <= length (tokenizeText text))%nat
  /\ (blank text = true ->
      tokenizeText text
      = [ {| word := []; originalIndex := 0; hasPunctuation := false |} ]).
Proof.
  split.
  - apply tokenizeText_length.
  - intros Hb. unfold tokenizeText. rewrite (trim_blank text Hb). reflexivity.
Qed.

Lemma tokenizeText_at_least_one_witness :
  blank (lit "  ") = true
  /\ tokenizeText (lit "  ")
     = [ {| word := []; originalIndex := 0; hasPunctuation := false |} ].
Proof.
  split; [ reflexivity | ].
  apply (proj2 (tokenizeText_at_least_one (lit "  "))). reflexivity.
Defined.

(** C8.  A token of [tokenizeText] has [hasPunctuation] set exactly when
    its text ends with one of [. , ; ? !]; and ["Hello, world!"] gives the
    two tokens ["Hello,"] and ["world!"], both flagged. *)
Theorem tokenizeText_punctuation :
  (forall text tok,
      In tok (tokenizeText text) ->
      (hasPunctuation tok = true
       <-> exists pre c, word tok = pre ++ [c] /\ In c (lit ".,;?!")))
  /\ tokenizeText (lit "Hello, world!")
     = [ {| word := lit "Hello,"; originalIndex := 0; hasPunctuation := true |};
         {| word := lit "world!"; originalIndex := 1; hasPunctuation := true |} ].
Proof.
  split; [ | reflexivity ].
  intros text tok Hin. unfold tokenizeText in Hin.
  destruct (map_tokens_In _ _ _ Hin) as [_ ->].
  apply ends_with_punct_spec.
Qed.

Lemma tokenizeText_punctuation_witness :
  let tok := {| word := lit "Hello,"; originalIndex := 0; hasPunctuation := true |} in
  In tok (tokenizeText (lit "Hello, world!"))
  /\ (hasPunctuation tok = true
      <-> exists pre c, word tok = pre ++ [c] /\ In c (lit ".,;?!")).
Proof.
  cbv zeta. split; [ left; reflexivity | ].
  apply (proj1 tokenizeText_punctuation (lit "Hello, world!")).
  left; reflexivity.
Defined.

(** C3, as the spec states it, fails: on a blank input [tokenizeText]
    neither fails nor returns the empty sequence; it returns a sequence
    that is not empty and holds a token whose text is empty. *)
Lemma tokenizeText_blank_counterexample :
  tokenizeText (lit "   ") <> []
  /\ exists tok, In tok (tokenizeText (lit "   ")) /\ word tok = [].
Proof.
  split; [ discriminate | ].
  exists {| word := []; originalIndex := 0; hasPunctuation := false |}.
  split; [ left; reflexivity | reflexivity ].
Qed.

(** C3, amended.  Blank input is refused before tokenization, by the guard
    of [processFile]; [tokenizeText] itself has no failure path.  For every
    input with at least one code unit that is not white space, the input
    is tokenized, the sequence is not empty and every token has a
    non-empty text. *)
Theorem processFile_tokens (text : jsstring) :
  (blank text = true -> exists message, processFile text = Refused message)
  /\ (blank text = false ->
      processFile text = Loaded (tokenizeText text)
      /\ tokenizeText text <> []
      /\ Forall (fun tok => word tok <> []) (tokenizeText text)).
Proof.
  split; intros Hb.
  - unfold processFile. rewrite (trim_blank text Hb). cbn [length Nat.eqb].
    rewrite orb_true_r. eexists; reflexivity.
  - pose proof (trim_not_blank text Hb) as Ht.
    assert (Hpieces : Forall (fun p => p <> []) (split_spaces (trim text))).
    { apply split_go_pieces; [ apply trim_last_ok | ].
      right. destruct (trim text) as [ | c t ] eqn:E; [ contradiction | ].
      right. eapply trim_head. exact E. }
    split; [ | split ].
    + unfold processFile.
      destruct text as [ | a text ]; [ discriminate | ].
      destruct (trim (a :: text)); [ contradiction | reflexivity ].
    + intros E. pose proof (tokenizeText_length text) as H.
      rewrite E in H. cbn in H. lia.
    + unfold tokenizeText. apply Forall_forall. intros tok Hin.
      destruct (map_tokens_In _ _ _ Hin) as [Hw _].
      rewrite Forall_forall in Hpieces. apply Hpieces. exact Hw.
Qed.

Lemma processFile_tokens_witness :
  blank (lit " a  b ") = false
  /\ processFile (lit " a  b ") = Loaded (tokenizeText (lit " a  b "))
  /\ tokenizeText (lit " a  b ") <> []
  /\ Forall (fun tok => word tok <> []) (tokenizeText (lit " a  b ")).
Proof.
  split; [ reflexivity | ].
  apply (proj2 (processFile_tokens (lit " a  b "))). reflexivity.
Defined.

(* ================================================================== *)
(** * The focal point *)
(* ================================================================== *)

Lemma ceil_div_35_100 (len : Z) :
  ceil_div (35 * len) 100 = (7 * len + 19) / 20.
Proof.
  unfold ceil_div.
  pose proof (Z.div_mod (7 * len + 19) 20 ltac:(lia)) as E.
  pose proof (Z.mod_pos_bound (7 * len + 19) 20 ltac:(lia)) as B.
  set (q := (7 * len + 19) / 20) in *.
  rewrite <- (Z.div_unique (- (35 * len)) 100 (- q) (100 * q - 35 * len)); lia.
Qed.

Lemma orpIndex_value (len : Z) :
  2 <= len < 2 ^ 48 -> orpIndex len = ceil_div (35 * len) 100 - 1.
Proof.
  intros H. unfold orpIndex.
  replace (len <=? 1) with false by (symmetry; apply Z.leb_gt; lia).
  rewrite orp_ceil by lia. rewrite ceil_div_35_100. reflexivity.
Qed.

(** The product is a finite number for every length below 2^53, so the
    integer reading of [Math.ceil] is the real one. *)
Lemma orp_product_finite (len : Z) :
  0 < len < 2 ^ 53 ->
  exists m e, orp_product len = S754_finite false m e.
Proof.
  intros [Hlen Hmax]. destruct len as [ | l | l ]; try lia.
  assert (Hd : Z.pos (digits2_pos l) <= 53).
  { pose proof (Binary64.digits_bounds l) as [Dlo _].
    destruct (Z.le_gt_cases (Z.pos (digits2_pos l)) 53) as [H | H]; [ exact H | ].
    assert (2 ^ 53 <= 2 ^ (Z.pos (digits2_pos l) - 1))
      by (apply Z.pow_le_mono_r; lia). lia. }
  destruct (orp_product_rounded l Hd) as (j & n & m & e & Hprod & _).
  exists m, e. exact Hprod.
Qed.

(** Past 2^50 the rounding of the product shows: the bound on the length
    in the statements below cannot simply be dropped. *)
Remark orpIndex_large_length :
  orpIndex (2 ^ 50 + 19) <> ceil_div (35 * (2 ^ 50 + 19)) 100 - 1.
Proof. vm_compute. discriminate. Qed.

(** C1.  Under [ORP_OPTIMAL] a word of length [len >= 2] gets exactly
    one highlighted character, at [idx = ceil(len * 0.35) - 1], which is
    also the alignment index; for [len <= 1] the index is 0; and "apple"
    gives [{start: 1, end: 2, alignIndex: 1}].  The product is the binary64
    one of the code; lengths are taken below 2^48, far above the longest
    string an engine allocates. *)
Theorem getHighlightRange_orp (w : jsstring) :
  let len := Z.of_nat (length w) in
  len < 2 ^ 48 ->
  (2 <= len ->
   let idx := ceil_div (35 * len) 100 - 1 in
   getHighlightRange w ORP_OPTIMAL
   = {| start := idx; end_ := idx + 1; alignIndex := idx |})
  /\ (len <= 1 ->
      getHighlightRange w ORP_OPTIMAL
      = {| start := 0; end_ := 1; alignIndex := 0 |})
  /\ getHighlightRange (lit "apple") ORP_OPTIMAL
     = {| start := 1; end_ := 2; alignIndex := 1 |}.
Proof.
  intros len Hmax. split; [ | split ].
  - intros H2 idx. unfold getHighlightRange. fold len.
    rewrite orpIndex_value by lia. reflexivity.
  - intros H1. unfold getHighlightRange, orpIndex. fold len.
    replace (len <=? 1) with true by (symmetry; apply Z.leb_le; lia).
    reflexivity.
  - vm_compute. reflexivity.
Qed.

Lemma getHighlightRange_orp_witness :
  Z.of_nat (length (lit "reading")) < 2 ^ 48
  /\ 2 <= Z.of_nat (length (lit "reading"))
  /\ getHighlightRange (lit "reading") ORP_OPTIMAL
     = {| start := 2; end_ := 3; alignIndex := 2 |}.
Proof.
  split; [ reflexivity | ]. split; [ discriminate | ].
  apply (proj1 (getHighlightRange_orp (lit "reading") eq_refl)).
  discriminate.
Defined.

(** C6.  For a non-empty word and any mode but [NONE] the range stays
    inside the word: [0 <= alignIndex < len], [0 <= start] and
    [end <= len]; for the one-letter word "a" the range lies in [0, 1). *)
Theorem getHighlightRange_in_word :
  (forall (w : jsstring) (mode : HighlightMode),
      let len := Z.of_nat (length w) in
      w <> [] -> len < 2 ^ 48 -> mode <> NONE ->
      let r := getHighlightRange w mode in
      0 <= alignIndex r < len /\ 0 <= start r /\ end_ r <= len)
  /\ (forall mode : HighlightMode,
         mode <> NONE ->
         let r := getHighlightRange (lit "a") mode in
         alignIndex r = 0 /\ 0 <= start r /\ end_ r <= 1).
Proof.
  split.
  - intros w mode len Hw Hmax Hmode r.
    assert (Hlen : 1 <= len) by (subst len; destruct w; [ contradiction | cbn; lia ]).
    subst r. unfold getHighlightRange. fold len.
    destruct mode; cbn [start end_ alignIndex]; try contradiction.
    + lia.
    + destruct (Z.eqb_spec (Z.min 2 len) 2); lia.
    + clearbody len. Z.div_mod_to_equations. lia.
    + destruct (Z.le_gt_cases len 1) as [H1 | H1].
      * unfold orpIndex.
        replace (len <=? 1) with true by (symmetry; apply Z.leb_le; lia). lia.
      * rewrite orpIndex_value by lia. rewrite ceil_div_35_100.
        clearbody len. Z.div_mod_to_equations. lia.
  - intros mode Hmode r. subst r.
    destruct mode; try contradiction; vm_compute; repeat split; discriminate.
Qed.

Lemma getHighlightRange_in_word_witness :
  lit "test" <> [] /\ Z.of_nat (length (lit "test")) < 2 ^ 48
  /\ FIRST_HALF <> NONE
  /\ (let r := getHighlightRange (lit "test") FIRST_HALF in
      0 <= alignIndex r < Z.of_nat (length (lit "test"))
      /\ 0 <= start r /\ end_ r <= Z.of_nat (length (lit "test"))).
Proof.
  split; [ discriminate | ]. split; [ reflexivity | ]. split; [ discriminate | ].
  apply (proj1 getHighlightRange_in_word (lit "test") FIRST_HALF);
    [ discriminate | reflexivity | discriminate ].
Defined.

(** C7, as the spec states it, fails: the empty word is not refused.
    [getHighlightRange] has no failure path; on the empty word it returns
    a range under every mode, and outside [NONE] that range is not inside
    the word ([FIRST_HALF] gives the alignment index -1). *)
Lemma getHighlightRange_empty_counterexample :
  ~ (forall mode : HighlightMode,
        mode <> NONE ->
        let r := getHighlightRange [] mode in
        0 <= alignIndex r /\ end_ r <= Z.of_nat (length (@nil N))).
Proof.
  intros H. specialize (H FIRST_HALF ltac:(discriminate)).
  cbv in H. destruct H as [H _]. apply H. reflexivity.
Qed.

(** C7, amended.  The empty word is accepted and these ranges come back:
    the reader itself passes [''] when there is no current token. *)
Theorem getHighlightRange_empty :
  getHighlightRange [] FIRST_LETTER = {| start := 0; end_ := 1; alignIndex := 0 |}
  /\ getHighlightRange [] FIRST_TWO = {| start := 0; end_ := 0; alignIndex := 0 |}
  /\ getHighlightRange [] FIRST_HALF = {| start := 0; end_ := 0; alignIndex := -1 |}
  /\ getHighlightRange [] ORP_OPTIMAL = {| start := 0; end_ := 1; alignIndex := 0 |}
  /\ getHighlightRange [] NONE = {| start := -1; end_ := -1; alignIndex := 0 |}
  /\ word (Reader.currentWordToken [] 0) = [].
Proof. repeat split. Qed.

(* ================================================================== *)
(** * Signs of rounded results *)
(* ================================================================== *)

Section Signs.

Import JS Binary64.









End Signs.

(* ================================================================== *)
(** * Rounded results are binary64 values *)
(* ================================================================== *)

Section Validity.

Import JS Binary64.

Lemma Zdigits2_bounds (m : Z) :
  0 < m -> 2 ^ (Zdigits2 m - 1) <= m < 2 ^ Zdigits2 m.
Proof. destruct m as [ | p | p ]; try lia. intros _. apply digits_bounds. Qed.

Lemma Zdigits2_unique (m k : Z) :
  0 < m -> 2 ^ (k - 1) <= m < 2 ^ k -> Zdigits2 m = k.
Proof. destruct m as [ | p | p ]; try lia. intros _. apply digits_unique. Qed.

Lemma Zdigits2_pos (m : Z) : 0 < m -> 0 < Zdigits2 m.
Proof. destruct m as [ | p | p ]; cbn; lia. Qed.

Lemma Zdigits2_ge (m k : Z) :
  0 < m -> 2 ^ (k - 1) <= m -> k <= Zdigits2 m.
Proof.
  intros Hm Hk. pose proof (Zdigits2_bounds m Hm) as [_ Hhi].
  pose proof (Zdigits2_pos m Hm) as Hd.
  destruct (Z.le_gt_cases k (Zdigits2 m)) as [H | H]; [ exact H | ].
  assert (2 ^ Zdigits2 m <= 2 ^ (k - 1)) by (apply Z.pow_le_mono_r; lia). lia.
Qed.

Lemma Zdigits2_div (m n : Z) :
  0 <= n -> 2 ^ n <= m -> Zdigits2 (m / 2 ^ n) = Zdigits2 m - n.
Proof.
  intros Hn Hm.
  assert (Hpn : 0 < 2 ^ n) by (apply Z.pow_pos_nonneg; lia).
  pose proof (Zdigits2_bounds m ltac:(lia)) as [Hlo Hhi].
  assert (Hnd : n < Zdigits2 m).
  { destruct (Z.lt_ge_cases n (Zdigits2 m)) as [H | H]; [ exact H | ].
    assert (2 ^ Zdigits2 m <= 2 ^ n)
      by (apply Z.pow_le_mono_r; [ lia | exact H ]). lia. }
  assert (H1 : 2 ^ (Zdigits2 m - 1) = 2 ^ (Zdigits2 m - n - 1) * 2 ^ n).
  { rewrite <- Z.pow_add_r by lia. f_equal. lia. }
  assert (H2 : 2 ^ Zdigits2 m = 2 ^ (Zdigits2 m - n) * 2 ^ n).
  { rewrite <- Z.pow_add_r by lia. f_equal. lia. }
  assert (Hq : 2 ^ (Zdigits2 m - n - 1) <= m / 2 ^ n < 2 ^ (Zdigits2 m - n)).
  { split.
    - apply Z.div_le_lower_bound; lia.
    - apply Z.div_lt_upper_bound; lia. }
  assert (0 < 2 ^ (Zdigits2 m - n - 1)) by (apply Z.pow_pos_nonneg; lia).
  apply Zdigits2_unique; lia.
Qed.

Lemma iter_shr_m (k : nat) (mrs : shr_record) :
  0 <= shr_m mrs ->
  shr_m (Nat.iter k shr_1 mrs) = shr_m mrs / 2 ^ Z.of_nat k.
Proof.
  intros Hm. induction k as [ | k IH ].
  - change (Nat.iter 0 shr_1 mrs) with mrs. change (Z.of_nat 0) with 0.
    rewrite Z.pow_0_r, Z.div_1_r. reflexivity.
  - change (Nat.iter (S k) shr_1 mrs) with (shr_1 (Nat.iter k shr_1 mrs)).
    assert (Hk : 0 <= shr_m (Nat.iter k shr_1 mrs)).
    { rewrite IH. apply Z.div_pos; [ exact Hm | apply Z.pow_pos_nonneg; lia ]. }
    destruct (Nat.iter k shr_1 mrs) as [m r s]. cbn [shr_m] in *.
    rewrite shr_1_nonneg by exact Hk. cbn [shr_m]. rewrite IH.
    rewrite Z.div_div by (try apply Z.pow_pos_nonneg; lia).
    rewrite Nat2Z.inj_succ, Z.pow_succ_r by lia.
    f_equal. lia.
Qed.

Lemma shr_value (mrs : shr_record) (e n : Z) :
  0 <= shr_m mrs -> 0 <= n ->
  shr_m (fst (shr mrs e n)) = shr_m mrs / 2 ^ n /\ snd (shr mrs e n) = e + n.
Proof.
  intros Hm Hn. destruct n as [ | p | p ]; try lia; cbn [shr fst snd].
  - rewrite Z.pow_0_r, Z.div_1_r. split; [ reflexivity | lia ].
  - rewrite iter_pos_nat, iter_shr_m by exact Hm.
    rewrite positive_nat_Z. split; reflexivity.
Qed.

Lemma shr_fexp_value (m e : Z) (l : location) :
  0 <= m -> e <= fexp prec emax (Zdigits2 m + e) ->
  shr_m (fst (shr_fexp prec emax m e l))
  = m / 2 ^ (fexp prec emax (Zdigits2 m + e) - e)
  /\ snd (shr_fexp prec emax m e l) = fexp prec emax (Zdigits2 m + e).
Proof.
  intros Hm He. unfold shr_fexp.
  assert (Hr : shr_m (shr_record_of_loc m l) = m)
    by (destruct l as [ | [ | | ] ]; reflexivity).
  destruct (shr_value (shr_record_of_loc m l) e
              (fexp prec emax (Zdigits2 m + e) - e)) as [H1 H2];
    [ rewrite Hr; exact Hm | lia | ].
  rewrite H1, H2, Hr. split; [ reflexivity | lia ].
Qed.

Lemma round_nearest_even_range (m : Z) (l : location) :
  m <= round_nearest_even m l <= m + 1.
Proof.
  destruct l as [ | [ | | ] ]; cbn [round_nearest_even];
    try destruct (Z.even m); lia.
Qed.

(** Rounding a mantissa that has at least the digits its exponent calls
    for gives a zero, an infinity or a canonical finite number. *)
Lemma binary_round_aux_valid (sx : bool) (mx ex : Z) (lx : location) :
  0 <= mx -> ex <= fexp prec emax (Zdigits2 mx + ex) ->
  valid_binary prec emax (binary_round_aux prec emax sx mx ex lx) = true.
Proof.
  intros Hm Hex. unfold binary_round_aux.
  destruct (shr_fexp_value mx ex lx Hm Hex) as [Hm1 He1].
  destruct (shr_fexp prec emax mx ex lx) as [mrs' e']. cbn [fst snd] in Hm1, He1.
  pose proof (round_nearest_even_range (shr_m mrs') (loc_of_shr_record mrs')) as Hm2.
  set (m2 := round_nearest_even (shr_m mrs') (loc_of_shr_record mrs')) in *.
  set (n1 := fexp prec emax (Zdigits2 mx + ex) - ex) in *.
  assert (Hn1 : 0 <= n1) by (subst n1; lia).
  assert (Hpn1 : 0 < 2 ^ n1) by (apply Z.pow_pos_nonneg; lia).
  assert (Hm1' : 0 <= shr_m mrs') by (rewrite Hm1; apply Z.div_pos; lia).
  assert (HA : e' <= fexp prec emax (Zdigits2 m2 + e')).
  { destruct (Z.eq_dec (shr_m mrs') 0) as [Hz | Hnz].
    - (* everything was shifted out: the exponent is the smallest one *)
      assert (Hsmall : mx < 2 ^ n1).
      { destruct (Z.lt_ge_cases mx (2 ^ n1)) as [H | H]; [ exact H | ].
        assert (1 <= mx / 2 ^ n1) by (apply Z.div_le_lower_bound; lia). lia. }
      assert (Hemin : e' = -1074).
      { destruct (Z.eq_dec mx 0) as [H0 | H0].
        - subst mx. cbn [Zdigits2] in *.
          unfold fexp, SpecFloat.emin, prec, emax in *. lia.
        - pose proof (Zdigits2_bounds mx ltac:(lia)) as [Hlo _].
          destruct (Z.le_gt_cases (Zdigits2 mx) n1) as [H | H].
          + unfold fexp, SpecFloat.emin, prec, emax in *. lia.
          + assert (2 ^ n1 <= 2 ^ (Zdigits2 mx - 1))
              by (apply Z.pow_le_mono_r; lia). lia. }
      assert (Hc : m2 = 0 \/ m2 = 1) by lia.
      destruct Hc as [-> | ->]; cbn [Zdigits2 digits2_pos];
        unfold fexp, SpecFloat.emin, prec, emax; lia.
    - assert (Hbig : 2 ^ n1 <= mx).
      { destruct (Z.le_gt_cases (2 ^ n1) mx) as [H | H]; [ exact H | ].
        rewrite Z.div_small in Hm1 by lia. lia. }
      pose proof (Zdigits2_div mx n1 Hn1 Hbig) as Hd1. rewrite <- Hm1 in Hd1.
      pose proof (Zdigits2_bounds (shr_m mrs') ltac:(lia)) as [Hlo _].
      pose proof (Zdigits2_ge m2 (Zdigits2 (shr_m mrs')) ltac:(lia) ltac:(lia)) as Hd2.
      unfold fexp, SpecFloat.emin, prec, emax in *. lia. }
  assert (Hm2' : 0 <= m2) by lia.
  destruct (shr_fexp_value m2 e' loc_Exact Hm2' HA) as [Hm3 He3].
  destruct (shr_fexp prec emax m2 e' loc_Exact) as [mrs'' e''].
  cbn [fst snd] in Hm3, He3.
  destruct (shr_m mrs'') as [ | m | m ] eqn:E3; [ reflexivity | | ].
  - destruct (e'' <=? emax - prec) eqn:Ee; [ | reflexivity ].
    cbn [valid_binary]. unfold bounded, canonical_mantissa.
    rewrite Ee, andb_true_r. apply Z.eqb_eq.
    set (n2 := fexp prec emax (Zdigits2 m2 + e') - e') in *.
    assert (Hn2 : 0 <= n2) by (subst n2; lia).
    assert (Hpn2 : 0 < 2 ^ n2) by (apply Z.pow_pos_nonneg; lia).
    assert (Hbig : 2 ^ n2 <= m2).
    { destruct (Z.le_gt_cases (2 ^ n2) m2) as [H | H]; [ exact H | ].
      rewrite Z.div_small in Hm3 by lia. lia. }
    pose proof (Zdigits2_div m2 n2 Hn2 Hbig) as Hd. rewrite <- Hm3 in Hd.
    cbn [Zdigits2] in Hd. rewrite Hd, He3. f_equal. subst n2. lia.
  - exfalso. assert (0 <= m2 / 2 ^ (fexp prec emax (Zdigits2 m2 + e') - e')).
    { apply Z.div_pos; [ exact Hm2' | apply Z.pow_pos_nonneg; lia ]. }
    lia.
Qed.

(** The quotient that [SFdiv] hands to the rounding has enough digits. *)
Lemma div_core_digits (m1 m2 : positive) (e1 e2 : Z) :
  let '(q, e', _) := SFdiv_core_binary prec emax (Z.pos m1) e1 (Z.pos m2) e2 in
  0 <= q /\ e' <= fexp prec emax (Zdigits2 q + e').
Proof.
  unfold SFdiv_core_binary.
  set (d1 := Zdigits2 (Z.pos m1)). set (d2 := Zdigits2 (Z.pos m2)).
  set (e' := Z.min (fexp prec emax (d1 + e1 - (d2 + e2))) (e1 - e2)).
  set (s := e1 - e2 - e').
  assert (Hs : 0 <= s) by (subst s e'; lia).
  assert (Hps : 0 < 2 ^ s) by (apply Z.pow_pos_nonneg; lia).
  set (m' := match s with
             | 0 => Z.pos m1
             | Z.pos _ => Z.shiftl (Z.pos m1) s
             | Z.neg _ => 0
             end).
  assert (Hm' : m' = Z.pos m1 * 2 ^ s).
  { subst m'. destruct s as [ | p | p ] eqn:Es; try lia.
    apply Z.shiftl_mul_pow2. lia. }
  pose proof (Zdigits2_bounds (Z.pos m1) ltac:(lia)) as [H1lo H1hi].
  pose proof (Zdigits2_bounds (Z.pos m2) ltac:(lia)) as [H2lo H2hi].
  pose proof (Zdigits2_pos (Z.pos m1) ltac:(lia)) as Hd1.
  pose proof (Zdigits2_pos (Z.pos m2) ltac:(lia)) as Hd2.
  fold d1 in H1lo, H1hi, Hd1. fold d2 in H2lo, H2hi, Hd2.
  assert (Hlo' : 2 ^ (d1 + s - 1) <= m').
  { rewrite Hm'. replace (d1 + s - 1) with (d1 - 1 + s) by lia.
    rewrite Z.pow_add_r by lia. apply Z.mul_le_mono_nonneg_r; lia. }
  assert (Hq : 0 <= fst (Z.div_eucl m' (Z.pos m2))
               /\ e' <= fexp prec emax (Zdigits2 (fst (Z.div_eucl m' (Z.pos m2))) + e')).
  { change (fst (Z.div_eucl m' (Z.pos m2))) with (m' / Z.pos m2).
    assert (Hq0 : 0 <= m' / Z.pos m2) by (apply Z.div_pos; lia).
    split; [ exact Hq0 | ].
    destruct (Z.eq_dec (m' / Z.pos m2) 0) as [Hz | Hnz].
    - (* the quotient vanished: the exponent is at most the smallest one *)
      rewrite Hz. cbn [Zdigits2].
      assert (Hlt : m' < Z.pos m2).
      { destruct (Z.lt_ge_cases m' (Z.pos m2)) as [H | H]; [ exact H | ].
        assert (1 <= m' / Z.pos m2) by (apply Z.div_le_lower_bound; lia). lia. }
      assert (Hd : d1 + s <= d2).
      { destruct (Z.le_gt_cases (d1 + s) d2) as [H | H]; [ exact H | ].
        assert (2 ^ d2 <= 2 ^ (d1 + s - 1)) by (apply Z.pow_le_mono_r; lia). lia. }
      subst s e'. unfold fexp, SpecFloat.emin, prec, emax in *. lia.
    - assert (Hk : d1 + s - d2 <= Zdigits2 (m' / Z.pos m2)).
      { destruct (Z.le_gt_cases (d1 + s - d2) 1) as [H | H].
        - pose proof (Zdigits2_pos (m' / Z.pos m2) ltac:(lia)). lia.
        - apply Zdigits2_ge; [ lia | ].
          apply Z.div_le_lower_bound; [ lia | ].
          assert (0 < 2 ^ (d1 + s - d2 - 1)) by (apply Z.pow_pos_nonneg; lia).
          assert (Hsplit : 2 ^ (d1 + s - 1) = 2 ^ d2 * 2 ^ (d1 + s - d2 - 1)).
          { rewrite <- Z.pow_add_r by lia. f_equal. lia. }
          assert (Z.pos m2 * 2 ^ (d1 + s - d2 - 1) <= 2 ^ d2 * 2 ^ (d1 + s - d2 - 1))
            by (apply Z.mul_le_mono_nonneg_r; lia).
          lia. }
      subst s e'. unfold fexp, SpecFloat.emin, prec, emax in *. lia. }
  destruct (Z.div_eucl m' (Z.pos m2)) as [q r]. cbn [fst] in Hq. exact Hq.
Qed.

(** Every quotient is a binary64 value, whatever the operands. *)
Lemma div_valid (x y : number) : valid_binary prec emax (div x y) = true.
Proof.
  unfold div.
  destruct x as [sx | sx | | sx mx ex]; destruct y as [sy | sy | | sy my ey];
    cbn [SFdiv valid_binary]; try reflexivity.
  pose proof (div_core_digits mx my ex ey) as H.
  destruct (SFdiv_core_binary prec emax (Z.pos mx) ex (Z.pos my) ey) as [[q e'] l].
  destruct H as [Hq He]. apply binary_round_aux_valid; assumption.
Qed.

Lemma digits2_pos_shift (m : positive) :
  Z.pos (digits2_pos (m * 4503599627370496)) = Z.pos (digits2_pos m) + 52.
Proof.
  pose proof (digits_bounds m) as [Hlo Hhi].
  apply digits_unique. rewrite Pos2Z.inj_mul.
  change (Z.pos 4503599627370496) with (2 ^ 52).
  replace (Z.pos (digits2_pos m) + 52 - 1) with (Z.pos (digits2_pos m) - 1 + 52) by lia.
  rewrite !Z.pow_add_r by lia.
  split.
  - apply Z.mul_le_mono_nonneg_r; lia.
  - apply Z.mul_lt_mono_pos_r; lia.
Qed.

(** Multiplying a binary64 value by 1 gives it back. *)
Lemma mul_one (x : number) :
  valid_binary prec emax x = true -> mul x (of_Z 1) = x.
Proof.
  intros Hv. change (of_Z 1) with (S754_finite false 4503599627370496 (-52)).
  unfold mul. destruct x as [s | s | | s m e]; cbn [SFmul];
    try (rewrite xorb_false_r; reflexivity); try reflexivity.
  rewrite xorb_false_r.
  cbn [valid_binary] in Hv. unfold bounded, canonical_mantissa in Hv.
  apply andb_true_iff in Hv. destruct Hv as [Hc Hb].
  apply Z.eqb_eq in Hc. apply Z.leb_le in Hb.
  unfold binary_round_aux, shr_fexp. cbn [shr_record_of_loc Zdigits2].
  rewrite digits2_pos_shift.
  replace (fexp prec emax (Z.pos (digits2_pos m) + 52 + (e + -52)) - (e + -52))
    with 52
    by (replace (Z.pos (digits2_pos m) + 52 + (e + -52))
          with (Z.pos (digits2_pos m) + e) by lia; rewrite Hc; lia).
  rewrite shr_exact by lia. cbn [shr_m].
  rewrite round_nearest_even_rne by lia.
  assert (Hr : rne (Z.pos (m * 4503599627370496)) 52 = Z.pos m).
  { unfold rne. rewrite Pos2Z.inj_mul.
    change (Z.pos 4503599627370496) with (2 ^ 52).
    rewrite Z.div_mul, Z.mod_mul by lia. reflexivity. }
  rewrite Hr. cbn [shr_record_of_loc Zdigits2].
  rewrite shr_nonpos
    by (replace (Z.pos (digits2_pos m) + (e + -52 + 52))
          with (Z.pos (digits2_pos m) + e) by lia; rewrite Hc; lia).
  cbn [shr_m].
  replace (e + -52 + 52) with e by lia.
  replace (e <=? emax - prec) with true by (symmetry; apply Z.leb_le; exact Hb).
  reflexivity.
Qed.

End Validity.

(* ================================================================== *)
(** * Sums of integers below 2^53 are exact *)
(* ================================================================== *)

Section IntegerSums.

Import JS Binary64.

Lemma digits2_pos_small (p : positive) :
  Z.pos p < 2 ^ 53 -> Z.pos (digits2_pos p) <= 53.
Proof.
  intros Hp. pose proof (digits_bounds p) as [Dlo _].
  destruct (Z.le_gt_cases (Z.pos (digits2_pos p)) 53) as [H | H]; [ exact H | ].
  assert (2 ^ 53 <= 2 ^ (Z.pos (digits2_pos p) - 1))
    by (apply Z.pow_le_mono_r; lia). lia.
Qed.

Lemma digits2_pos_mul_pow2 (c s : positive) (k : Z) :
  0 <= k -> Z.pos s = Z.pos c * 2 ^ k ->
  Z.pos (digits2_pos s) = Z.pos (digits2_pos c) + k.
Proof.
  intros Hk Hs. pose proof (digits_bounds c) as [Hlo Hhi].
  assert (Hp : 0 < 2 ^ k) by (apply Z.pow_pos_nonneg; lia).
  apply digits_unique. rewrite Hs.
  replace (Z.pos (digits2_pos c) + k - 1) with (Z.pos (digits2_pos c) - 1 + k) by lia.
  rewrite !Z.pow_add_r by lia. split.
  - apply Z.mul_le_mono_nonneg_r; lia.
  - apply Z.mul_lt_mono_pos_r; lia.
Qed.

Lemma shl_align_fst (m : positive) (e ez : Z) :
  ez <= e -> Z.pos (fst (shl_align m e ez)) = Z.pos m * 2 ^ (e - ez).
Proof.
  intros H. unfold shl_align. destruct (ez - e) as [ | d | d ] eqn:E; cbn [fst].
  - replace (e - ez) with 0 by lia. rewrite Z.pow_0_r. lia.
  - lia.
  - rewrite iter_xO. f_equal. f_equal. lia.
Qed.

(** A mantissa whose low [n] bits are zero is shifted without rounding. *)
Lemma round_aux_exact (sx : bool) (s q : positive) (ex n : Z) :
  0 < n -> Z.pos s = Z.pos q * 2 ^ n ->
  Z.pos (digits2_pos q) = 53 ->
  -1074 <= ex + n <= 971 ->
  binary_round_aux prec emax sx (Z.pos s) ex loc_Exact
  = S754_finite sx q (ex + n).
Proof.
  intros Hn Hs Hq Hex.
  assert (Hpn : 0 < 2 ^ n) by (apply Z.pow_pos_nonneg; lia).
  pose proof (digits2_pos_mul_pow2 q s n ltac:(lia) Hs) as Hd.
  unfold binary_round_aux, shr_fexp. cbn [shr_record_of_loc Zdigits2].
  replace (fexp prec emax (Z.pos (digits2_pos s) + ex) - ex) with n
    by (unfold fexp, SpecFloat.emin, prec, emax; lia).
  rewrite shr_exact by lia. cbn [shr_m].
  rewrite round_nearest_even_rne by lia.
  assert (Hr : rne (Z.pos s) n = Z.pos q).
  { unfold rne. rewrite Hs, Z.div_mul, Z.mod_mul by lia.
    replace (2 * 0 ?= 2 ^ n) with Lt
      by (symmetry; apply Z.compare_lt_iff; lia).
    reflexivity. }
  rewrite Hr. cbn [shr_record_of_loc Zdigits2]. rewrite Hq.
  rewrite shr_nonpos by (unfold fexp, SpecFloat.emin, prec, emax; lia).
  cbn [shr_m].
  replace (ex + n <=? emax - prec) with true
    by (symmetry; apply Z.leb_le; unfold prec, emax; lia).
  reflexivity.
Qed.

(** Normalising [c * 2^k] at exponent [-k] gives the number [c]. *)
Lemma binary_round_int (s c : positive) (k : Z) :
  Z.pos s = Z.pos c * 2 ^ k -> 0 <= k <= 52 ->
  Z.pos (digits2_pos c) <= 53 ->
  binary_round prec emax false s (- k) = of_Z (Z.pos c).
Proof.
  intros Hs Hk Hd.
  destruct (of_Z_pos c Hd) as (m0 & j & Hof & Hj & Hm0 & Hd0). rewrite Hof.
  pose proof (digits2_pos_mul_pow2 c m0 j ltac:(lia) Hm0) as Hdj.
  pose proof (digits2_pos_mul_pow2 c s k ltac:(lia) Hs) as Hds.
  assert (Hpow : forall x y, 0 <= x -> 0 <= y -> 2 ^ (x + y) = 2 ^ x * 2 ^ y)
    by (intros; apply Z.pow_add_r; lia).
  unfold binary_round, shl_align.
  replace (fexp prec emax (Z.pos (digits2_pos s) + - k)) with (- j)
    by (unfold fexp, SpecFloat.emin, prec, emax; lia).
  destruct (- j - - k) as [ | d | d ] eqn:E.
  - assert (k = j) by lia. subst k.
    assert (s = m0) by (apply Pos2Z.inj; lia). subst s.
    apply round_aux_fits; lia.
  - rewrite (round_aux_exact false s m0 (- k) (k - j)); try lia.
    + f_equal. lia.
    + rewrite Hs, Hm0, <- Z.mul_assoc, <- Hpow by lia. do 2 f_equal. lia.
  - assert (Hm : Pos.iter xO s d = m0).
    { apply Pos2Z.inj. rewrite iter_xO, Hs, Hm0, <- Z.mul_assoc.
      replace (Z.pos d) with (j - k) by lia.
      rewrite <- Hpow by lia. do 2 f_equal. lia. }
    rewrite Hm. apply round_aux_fits; lia.
Qed.

(** Adding two non-negative integers whose sum is below 2^53 is exact. *)
Lemma add_of_Z (a b : Z) :
  0 <= a -> 0 <= b -> a + b < 2 ^ 53 ->
  add (of_Z a) (of_Z b) = of_Z (a + b).
Proof.
  intros Ha Hb Hsum.
  destruct a as [ | pa | pa ]; try lia; destruct b as [ | pb | pb ]; try lia.
  - reflexivity.
  - cbn [Z.add]. destruct (of_Z_pos pb (digits2_pos_small pb ltac:(lia)))
      as (m & j & Hof & _). rewrite Hof. reflexivity.
  - rewrite Z.add_0_r.
    destruct (of_Z_pos pa (digits2_pos_small pa ltac:(lia)))
      as (m & j & Hof & _). rewrite Hof. reflexivity.
  - destruct (of_Z_pos pa (digits2_pos_small pa ltac:(lia)))
      as (ma & ja & Hofa & Hja & Hma & _).
    destruct (of_Z_pos pb (digits2_pos_small pb ltac:(lia)))
      as (mb & jb & Hofb & Hjb & Hmb & _).
    rewrite Hofa, Hofb. unfold add. cbn [SFadd cond_Zopp Z.add].
    change (Z.pos pa + Z.pos pb) with (Z.pos (pa + pb)).
    cbn [binary_normalize].
    set (k := Z.max ja jb).
    replace (Z.min (- ja) (- jb)) with (- k) by (subst k; lia).
    apply binary_round_int; [ | subst k; lia | apply digits2_pos_small; lia ].
    rewrite Pos2Z.inj_add, !shl_align_fst by (subst k; lia).
    rewrite Hma, Hmb, (Pos2Z.inj_add pa pb).
    assert (Hpow : forall x y, 0 <= x -> 0 <= y -> 2 ^ (x + y) = 2 ^ x * 2 ^ y)
      by (intros; apply Z.pow_add_r; lia).
    rewrite <- !Z.mul_assoc, <- !Hpow by (subst k; lia).
    replace (ja + (- ja - - k)) with k by lia.
    replace (jb + (- jb - - k)) with k by lia.
    ring.
Qed.

End IntegerSums.

(* ================================================================== *)
(** * The reader: the delay of a token *)
(* ================================================================== *)

Lemma lit_1_5_value : exactly JS.lit_1_5 3 2.
Proof. split; vm_compute; reflexivity. Qed.

Lemma lit_1_3_value : nearest_to JS.lit_1_3 13 10.
Proof. split; [ vm_compute; reflexivity | vm_compute; discriminate ]. Qed.

Lemma one_value : exactly (JS.of_Z 1) 1 1.
Proof. split; vm_compute; reflexivity. Qed.

(** C2.  The delay of a token is the base delay [60000 / wpm] times one
    multiplier: 1.5 when the token has trailing punctuation, whatever its
    length; else 1.3 when the word has more than ten characters; else 1.
    The quotient and the product are the binary64 ones of the code, where
    the third case returns the base delay itself: that is its product
    by 1.  The multipliers are given by their values: the binary64 number
    that is 3/2, the binary64 number nearest to 13/10 (which is not a
    binary64 number), and the binary64 number that is 1. *)
Theorem getDelay_multiplier (rate : JS.number) (tok : WordToken) :
  Reader.getDelay rate tok
  = JS.mul (JS.div (JS.of_Z 60000) rate) (delayMultiplier tok)
  /\ (hasPunctuation tok = true -> exactly (delayMultiplier tok) 3 2)
  /\ (hasPunctuation tok = false -> 10 < Z.of_nat (length (word tok)) ->
      nearest_to (delayMultiplier tok) 13 10)
  /\ (hasPunctuation tok = false -> Z.of_nat (length (word tok)) <= 10 ->
      exactly (delayMultiplier tok) 1 1).
Proof.
  unfold Reader.getDelay, Reader.baseDelay, delayMultiplier.
  split; [ | split; [ | split ] ].
  - destruct (hasPunctuation tok); [ reflexivity | ].
    destruct (10 <? Z.of_nat (length (word tok))); [ reflexivity | ].
    symmetry. apply mul_one, div_valid.
  - intros ->. exact lit_1_5_value.
  - intros -> H. replace (10 <? _) with true by (symmetry; apply Z.ltb_lt; exact H).
    exact lit_1_3_value.
  - intros -> H. replace (10 <? _) with false by (symmetry; apply Z.ltb_ge; exact H).
    exact one_value.
Qed.

Lemma getDelay_multiplier_witness :
  let tok := {| word := lit "extraordinarily."; originalIndex := 3;
                hasPunctuation := true |} in
  hasPunctuation tok = true
  /\ exactly (delayMultiplier tok) 3 2
  /\ Reader.getDelay (JS.of_Z 300) tok = JS.of_Z 300.
Proof.
  cbv zeta. split; [ reflexivity | ].
  pose proof (getDelay_multiplier (JS.of_Z 300)
                {| word := lit "extraordinarily."; originalIndex := 3;
                   hasPunctuation := true |}) as [H1 [H2 _]].
  split; [ apply H2; reflexivity | ].
  rewrite H1. vm_compute. reflexivity.
Defined.

(* ================================================================== *)
(** * The reader: finishing and pausing *)
(* ================================================================== *)

Section ReaderClaims.

Import Reader.









(** Outside the states of the scheduler [handleFinish] clamps nothing: a
    pause recorded by [pauseReading] before any start is charged against
    the session that starts later, and the quotient is negative.  This is
    why [scheduled] lets [pauseReading] run on started sessions only. *)
Remark handleFinish_not_clamped :
  let st := startReading 10 6000 1%positive
              (pauseReading 1000 (init (JS.of_Z 300))) in
  sessionStartTimeRef st = Some 6000
  /\ totalPauseDurationRef st = 5000
  /\ snd (handleFinish 7000 st)
     = (1, JS.div (JS.of_Z (-4000)) (JS.of_Z 1000), JS.of_Z 300)
  /\ JS.lt (duration 7000 st) JS.zero = true.
Proof. vm_compute. repeat split. Qed.



(** What a second [pauseReading] does: everything but the recorded start
    of the pause is as after the first call, and that start is
    overwritten with the later reading of the clock.  Nothing in the
    component calls [pauseReading]. *)
Lemma pauseReading_twice (t1 t2 : Z) (st : state) :
  pauseReading t2 (pauseReading t1 st) = pauseReading t2 st.
Proof. reflexivity. Qed.

Lemma pauseReading_not_idempotent (t1 t2 : Z) (st : state) :
  t1 <> t2 -> pauseReading t2 (pauseReading t1 st) <> pauseReading t1 st.
Proof.
  intros Hne E. apply (f_equal pauseStartTimeRef) in E. cbn in E.
  injection E as E. congruence.
Qed.

(** The effect that tracks pauses made with the toggle has the guard
    that [pauseReading] lacks: a recorded start is never overwritten. *)
Lemma pauseEffect_idempotent (t1 t2 : Z) (st : state) :
  t1 <> 0 -> pauseEffect t2 (pauseEffect t1 st) = pauseEffect t1 st.
Proof.
  intros Hnz. unfold pauseEffect at 2 3.
  destruct (negb (isPlaying st) && negb (JS.truthy (pauseStartTimeRef st))
            && JS.truthy (sessionStartTimeRef st)) eqn:E.
  - unfold pauseEffect. cbn [isPlaying pauseStartTimeRef JS.truthy].
    replace (t1 =? 0) with false by (symmetry; apply Z.eqb_neq; exact Hnz).
    cbn [negb]. rewrite andb_false_r. reflexivity.
  - unfold pauseEffect. rewrite E. reflexivity.
Qed.






End ReaderClaims.

(* ================================================================== *)
(** * Recording a session *)
(* ================================================================== *)

(** C5.  A finished session is recorded exactly when it lasted more than
    10 seconds or covered more than 50 words.  Recording appends one
    record after the existing ones and adds the record's words and
    (rounded) seconds to the totals, in binary64 as the code does: for a
    total that is an integer, with a sum below 2^53, the new total of
    words is the exact sum.  Otherwise the statistics are left as they
    were. *)
Theorem handleReadingFinish_significant
        (now : Z) (stats : ReadingStats) (words : Z) (duration finalWpm : JS.number) :
  let stats' := handleReadingFinish now stats words duration finalWpm in
  let recorded := JS.gt duration (JS.of_Z 10) = true \/ 50 < words in
  (recorded ->
   exists r,
     sessions stats' = sessions stats ++ [r]
     /\ wordsRead r = words
     /\ durationSeconds r = JS.round duration
     /\ wpm r = finalWpm
     /\ totalWords stats' = JS.add (totalWords stats) (JS.of_Z (wordsRead r))
     /\ (forall total,
           totalWords stats = JS.of_Z total ->
           0 <= total -> 0 <= words -> total + words < 2 ^ 53 ->
           totalWords stats' = JS.of_Z (total + wordsRead r))
     /\ totalTimeSeconds stats'
        = JS.add (totalTimeSeconds stats) (durationSeconds r))
  /\ (~ recorded -> stats' = stats)
  /\ (sessions stats' <> sessions stats <-> recorded).
Proof.
  intros stats' recorded.
  assert (Hsig : significant words duration = true <-> recorded).
  { unfold significant, recorded. rewrite orb_true_iff, Z.ltb_lt. tauto. }
  assert (Hgrow : forall (l : list ReadingSession) r, l ++ [r] <> l).
  { intros l r E. apply (f_equal (@length _)) in E.
    rewrite length_app in E. cbn in E. lia. }
  subst stats'. unfold handleReadingFinish.
  destruct (significant words duration) eqn:Es.
  - assert (Hr : recorded) by (apply Hsig; reflexivity).
    split; [ | split ].
    + intros _. eexists.
      cbn [sessions totalWords totalTimeSeconds newSession wordsRead
           durationSeconds wpm].
      repeat split.
      intros total Ht H0 Hw Hsum. rewrite Ht. apply add_of_Z; assumption.
    + tauto.
    + cbn [sessions]. split; [ tauto | intros _; apply Hgrow ].
  - assert (Hr : ~ recorded) by (rewrite <- Hsig; discriminate).
    split; [ tauto | ]. split; [ reflexivity | ].
    split; [ congruence | tauto ].
Qed.

Lemma handleReadingFinish_significant_witness :
  let stats := {| totalWords := JS.of_Z 120; totalTimeSeconds := JS.of_Z 30;
                  sessions := [] |} in
  let stats' := handleReadingFinish 1700000000000 stats 60 (JS.of_Z 6) (JS.of_Z 600) in
  (JS.gt (JS.of_Z 6) (JS.of_Z 10) = true \/ 50 < 60)
  /\ exists r,
      sessions stats' = sessions stats ++ [r]
      /\ wordsRead r = 60
      /\ durationSeconds r = JS.round (JS.of_Z 6)
      /\ wpm r = JS.of_Z 600
      /\ totalWords stats' = JS.of_Z 180
      /\ totalTimeSeconds stats' = JS.of_Z 36.
Proof.
  cbv zeta. split; [ right; reflexivity | ].
  destruct (proj1 (handleReadingFinish_significant 1700000000000
                     {| totalWords := JS.of_Z 120;
                        totalTimeSeconds := JS.of_Z 30; sessions := [] |}
                     60 (JS.of_Z 6) (JS.of_Z 600)))
    as (r & Hs & Hw & Hd & Hr & _ & Hexact & Ht);
    [ right; reflexivity | ].
  exists r. split; [ exact Hs | ]. split; [ exact Hw | ].
  split; [ exact Hd | ]. split; [ exact Hr | ]. split.
  - rewrite (Hexact 120 eq_refl); [ rewrite Hw; reflexivity | | | ];
      (discriminate || reflexivity).
  - rewrite Ht, Hd. reflexivity.
Defined.

(* ================================================================== *)
(** * Further properties of the tokenizer *)
(* ================================================================== *)

Section TokenizerMore.

Lemma map_tokens_nth (l : list jsstring) :
  forall i k tok,
    nth_error (map_tokens i l) k = Some tok ->
    originalIndex tok = i + Z.of_nat k
    /\ nth_error l k = Some (word tok).
Proof.
  induction l as [ | w l IH ]; intros i k tok H.
  - destruct k; discriminate.
  - destruct k as [ | k ]; cbn [map_tokens nth_error] in *.
    + injection H as <-. cbn. split; [ lia | reflexivity ].
    + destruct (IH _ _ _ H) as [H1 H2]. split; [ lia | exact H2 ].
Qed.

Lemma map_tokens_words (l : list jsstring) :
  forall i, map word (map_tokens i l) = l.
Proof.
  induction l as [ | w l IH ]; intros i; cbn; [ | rewrite IH ]; reflexivity.
Qed.

Lemma split_go_no_space (s : jsstring) :
  forall in_sep cur,
    Forall (fun c => is_space c = false) cur ->
    Forall (Forall (fun c => is_space c = false)) (split_go in_sep cur s).
Proof.
  induction s as [ | c rest IH ]; intros in_sep cur Hcur; cbn [split_go].
  - constructor; [ apply Forall_rev; exact Hcur | constructor ].
  - destruct (is_space c) eqn:Ec.
    + destruct in_sep.
      * apply IH. exact Hcur.
      * constructor; [ apply Forall_rev; exact Hcur | apply IH; constructor ].
    + apply IH. constructor; assumption.
Qed.

Lemma split_go_words (s : jsstring) :
  forall in_sep cur,
    (in_sep = true -> cur = []) ->
    filter (fun p => negb (length p =? 0)%nat) (split_go in_sep cur s)
    = words_go cur s.
Proof.
  assert (Hemit : forall cur,
             filter (fun p => negb (length p =? 0)%nat) [rev cur] = emit cur).
  { intros [ | c cur ]; [ reflexivity | ].
    cbn [filter emit]. rewrite length_rev. reflexivity. }
  induction s as [ | c rest IH ]; intros in_sep cur Hinv;
    cbn [split_go words_go].
  - apply Hemit.
  - destruct (is_space c).
    + destruct in_sep.
      * rewrite (Hinv eq_refl). cbn [emit app]. apply IH. reflexivity.
      * change (rev cur :: split_go true [] rest)
          with ([rev cur] ++ split_go true [] rest).
        rewrite filter_app, Hemit, IH by reflexivity. reflexivity.
    + apply IH. discriminate.
Qed.

Lemma filter_nonempty_id (l : list jsstring) :
  Forall (fun p => p <> []) l ->
  filter (fun p => negb (length p =? 0)%nat) l = l.
Proof.
  induction 1 as [ | p l Hp _ IH ]; [ reflexivity | ].
  cbn [filter]. destruct p; [ contradiction | ]. cbn. rewrite IH. reflexivity.
Qed.

Lemma words_go_blank (post : jsstring) :
  blank post = true -> forall cur, words_go cur post = emit cur.
Proof.
  induction post as [ | c post IH ]; intros Hb cur; [ reflexivity | ].
  unfold blank in Hb. cbn [forallb] in Hb. apply andb_true_iff in Hb.
  destruct Hb as [Hc Hp]. cbn [words_go]. rewrite Hc, (IH Hp).
  cbn [emit]. apply app_nil_r.
Qed.

Lemma words_go_app_blank (s post : jsstring) :
  blank post = true ->
  forall cur, words_go cur (s ++ post) = words_go cur s.
Proof.
  intros Hb. induction s as [ | c s IH ]; intros cur; cbn [app words_go].
  - apply words_go_blank. exact Hb.
  - destruct (is_space c); rewrite IH; reflexivity.
Qed.

Lemma words_of_blank_app (pre s : jsstring) :
  blank pre = true -> words_of (pre ++ s) = words_of s.
Proof.
  unfold words_of. induction pre as [ | c pre IH ]; intros Hb; [ reflexivity | ].
  unfold blank in Hb. cbn [forallb] in Hb. apply andb_true_iff in Hb.
  destruct Hb as [Hc Hp]. cbn [app words_go]. rewrite Hc. cbn [emit app].
  apply IH. exact Hp.
Qed.

Lemma words_go_sep (a b : jsstring) (c : N) :
  is_space c = true ->
  forall cur, words_go cur (a ++ c :: b) = words_go cur a ++ words_go [] b.
Proof.
  intros Hc. induction a as [ | x a IH ]; intros cur; cbn [app words_go].
  - rewrite Hc. reflexivity.
  - destruct (is_space x); [ rewrite IH, app_assoc | rewrite IH ]; reflexivity.
Qed.

(** A text is its trimmed form between two blank margins. *)
Lemma trim_margins (s : jsstring) :
  exists pre post,
    s = pre ++ trim s ++ post /\ blank pre = true /\ blank post = true.
Proof.
  destruct (drop_spaces_suffix s) as (pre & Hs & Hpre).
  destruct (drop_spaces_suffix (rev (drop_spaces s))) as (q & Hr & Hq).
  exists pre, (rev q). split; [ | split ].
  - rewrite Hs at 1. f_equal. unfold trim.
    rewrite <- rev_app_distr, <- Hr, rev_involutive. reflexivity.
  - exact Hpre.
  - rewrite blank_rev. exact Hq.
Qed.

Lemma words_of_trim (s : jsstring) : words_of (trim s) = words_of s.
Proof.
  destruct (trim_margins s) as (pre & post & Hs & Hpre & Hpost).
  rewrite Hs at 2. rewrite (words_of_blank_app _ _ Hpre).
  unfold words_of. rewrite (words_go_app_blank _ _ Hpost). reflexivity.
Qed.

Lemma trim_pieces (text : jsstring) :
  blank text = false ->
  Forall (fun p => p <> []) (split_spaces (trim text)).
Proof.
  intros Hb. pose proof (trim_not_blank text Hb) as Ht.
  apply split_go_pieces; [ apply trim_last_ok | ].
  right. destruct (trim text) as [ | c t ] eqn:E; [ contradiction | ].
  right. eapply trim_head. exact E.
Qed.

Lemma tokenizeText_words (text : jsstring) :
  blank text = false ->
  map word (tokenizeText text) = words_of text.
Proof.
  intros Hb. unfold tokenizeText. rewrite map_tokens_words.
  rewrite <- (filter_nonempty_id _ (trim_pieces text Hb)).
  unfold split_spaces. rewrite split_go_words by discriminate.
  apply words_of_trim.
Qed.

Lemma words_of_nil_blank (s : jsstring) : words_of s = [] -> blank s = true.
Proof.
  unfold words_of.
  assert (H : forall s cur, words_go cur s = [] -> cur = [] /\ blank s = true).
  { clear s. induction s as [ | c s IH ]; intros cur E; cbn [words_go] in E.
    - split; [ destruct cur; [ reflexivity | discriminate ] | reflexivity ].
    - destruct (is_space c) eqn:Ec.
      + apply app_eq_nil in E. destruct E as [E1 E2].
        destruct (IH _ E2) as [_ Hb].
        split; [ destruct cur; [ reflexivity | discriminate ] | ].
        unfold blank in *. cbn [forallb]. rewrite Ec, Hb. reflexivity.
      + destruct (IH _ E) as [Hcur _]. discriminate. }
  intros E. apply (H s [] E).
Qed.

Lemma words_of_blank (s : jsstring) : blank s = true -> words_of s = [].
Proof. intros Hb. apply (words_go_blank s Hb []). Qed.

(** X1.  Apart from the blank case, the texts of the tokens are the
    words of the input: its maximal runs of code units that are not
    white space, in the order of the text.  Leading, trailing and
    repeated white space never produces a token. *)
Theorem tokenizeText_is_words_of (text : jsstring) :
  blank text = false ->
  map word (tokenizeText text) = words_of text
  /\ words_of text <> [].
Proof.
  intros Hb. split; [ apply tokenizeText_words; exact Hb | ].
  intros E. apply words_of_nil_blank in E. congruence.
Qed.

Lemma tokenizeText_is_words_of_witness :
  blank (lit "  to be,   or not ") = false
  /\ map word (tokenizeText (lit "  to be,   or not "))
     = words_of (lit "  to be,   or not ")
  /\ words_of (lit "  to be,   or not ") <> [].
Proof.
  split; [ reflexivity | ].
  apply (tokenizeText_is_words_of (lit "  to be,   or not ")). reflexivity.
Defined.

(** X2.  The token at position [k] of the result carries
    [originalIndex = k]: the indices count the tokens from 0 without gap
    or repetition. *)
Theorem tokenizeText_originalIndex (text : jsstring) (k : nat) (tok : WordToken) :
  nth_error (tokenizeText text) k = Some tok ->
  originalIndex tok = Z.of_nat k.
Proof.
  intros H. unfold tokenizeText in H.
  destruct (map_tokens_nth _ _ _ _ H) as [Hi _]. lia.
Qed.

Lemma tokenizeText_originalIndex_witness :
  nth_error (tokenizeText (lit "a bc d")) 2
  = Some {| word := lit "d"; originalIndex := 2; hasPunctuation := false |}
  /\ originalIndex {| word := lit "d"; originalIndex := 2;
                      hasPunctuation := false |} = Z.of_nat 2.
Proof.
  split; [ reflexivity | ].
  apply (tokenizeText_originalIndex (lit "a bc d") 2). reflexivity.
Defined.

(** X3.  No token contains a white-space code unit, and the tokens lose
    nothing else: their texts, concatenated, are the input with its white
    space removed. *)
Theorem tokenizeText_keeps_characters (text : jsstring) :
  Forall (fun tok => Forall (fun c => is_space c = false) (word tok))
         (tokenizeText text)
  /\ concat (map word (tokenizeText text)) = filter not_space text.
Proof.
  assert (Hfilter : forall s cur,
             concat (words_go cur s) = rev cur ++ filter not_space s).
  { induction s as [ | c s IH ]; intros cur; cbn [words_go filter].
    - destruct cur; cbn [emit concat]; rewrite ?app_nil_r; reflexivity.
    - unfold not_space at 1. destruct (is_space c); cbn [negb].
      + rewrite concat_app, IH. cbn [rev app].
        destruct cur; cbn [emit concat]; rewrite ?app_nil_r; reflexivity.
      + rewrite IH. cbn [rev]. rewrite <- app_assoc. reflexivity. }
  split.
  - unfold tokenizeText. apply Forall_forall. intros tok Hin.
    destruct (map_tokens_In _ _ _ Hin) as [Hw _].
    pose proof (split_go_no_space (trim text) false [] (Forall_nil _)) as H.
    rewrite Forall_forall in H. apply H. exact Hw.
  - destruct (blank text) eqn:Hb.
    + unfold tokenizeText. rewrite (trim_blank text Hb). cbn.
      pose proof (Hfilter text []) as H.
      rewrite (words_go_blank text Hb) in H. cbn in H. exact H.
    + rewrite (tokenizeText_words text Hb). apply (Hfilter text []).
Qed.

(** X4.  White space around a text does not change its tokens. *)
Theorem tokenizeText_margins (pre text post : jsstring) :
  blank pre = true -> blank post = true ->
  tokenizeText (pre ++ text ++ post) = tokenizeText text.
Proof.
  intros Hpre Hpost.
  assert (Hdrop : forall a b, blank a = true -> drop_spaces (a ++ b) = drop_spaces b).
  { induction a as [ | c a IH ]; intros b Hb; [ reflexivity | ].
    unfold blank in Hb. cbn [forallb] in Hb. apply andb_true_iff in Hb.
    destruct Hb as [Hc Ha]. cbn [app drop_spaces]. rewrite Hc. apply IH. exact Ha. }
  assert (Htrim : trim (pre ++ text ++ post) = trim text).
  { unfold trim. rewrite (Hdrop pre _ Hpre).
    destruct (blank text) eqn:Hb.
    - rewrite (Hdrop text post Hb), (drop_spaces_blank post Hpost),
        (drop_spaces_blank text Hb). reflexivity.
    - destruct (drop_spaces_suffix text) as (a & Ha & Hab).
      assert (Hne : drop_spaces text <> []).
      { intros E. apply drop_spaces_nil in E. congruence. }
      assert (Hd : drop_spaces (text ++ post) = drop_spaces text ++ post).
      { rewrite Ha at 1. rewrite <- app_assoc, (Hdrop a _ Hab).
        destruct (drop_spaces text) as [ | c t ] eqn:E; [ contradiction | ].
        apply drop_spaces_head in E. cbn [app drop_spaces]. rewrite E. reflexivity. }
      rewrite Hd, rev_app_distr, Hdrop by (rewrite blank_rev; exact Hpost).
      reflexivity. }
  unfold tokenizeText. rewrite Htrim. reflexivity.
Qed.

Lemma tokenizeText_margins_witness :
  blank (lit "  ") = true /\ blank (lit " ") = true
  /\ tokenizeText (lit "  " ++ lit "speed reading" ++ lit " ")
     = tokenizeText (lit "speed reading").
Proof.
  split; [ reflexivity | ]. split; [ reflexivity | ].
  apply (tokenizeText_margins (lit "  ") (lit "speed reading") (lit " "));
    reflexivity.
Defined.

Lemma words_of_join (strs : list jsstring) :
  words_of (join_space strs) = flat_map words_of strs.
Proof.
  induction strs as [ | x strs IH ]; [ reflexivity | ].
  destruct strs as [ | y strs ].
  - cbn [join_space flat_map]. rewrite app_nil_r. reflexivity.
  - change (join_space (x :: y :: strs))
      with (x ++ 32%N :: join_space (y :: strs)).
    unfold words_of at 1. rewrite words_go_sep by reflexivity.
    fold (words_of x). fold (words_of (join_space (y :: strs))).
    rewrite IH. reflexivity.
Qed.

Lemma extractPdfText_concat (pages : list (list jsstring)) :
  extractPdfText pages
  = concat (map (fun items => join_space items ++ [32%N]) pages).
Proof.
  unfold extractPdfText.
  assert (H : forall pages acc,
             fold_left (fun fullText items => fullText ++ (join_space items ++ [32%N]))
                       pages acc
             = acc ++ concat (map (fun items => join_space items ++ [32%N]) pages)).
  { clear pages. induction pages as [ | items pages IH ]; intros acc;
      cbn [fold_left map concat].
    - rewrite app_nil_r. reflexivity.
    - rewrite IH, <- app_assoc. reflexivity. }
  apply (H pages []).
Qed.

Lemma extractPdfText_words (pages : list (list jsstring)) :
  words_of (extractPdfText pages) = flat_map words_of (concat pages).
Proof.
  rewrite extractPdfText_concat.
  induction pages as [ | items pages IH ]; [ reflexivity | ].
  cbn [map concat]. rewrite <- app_assoc. cbn [app].
  unfold words_of at 1. rewrite words_go_sep by reflexivity.
  fold (words_of (join_space items)).
  fold (words_of (concat (map (fun items => join_space items ++ [32%N]) pages))).
  rewrite IH, words_of_join, flat_map_app. reflexivity.
Qed.

Lemma processFile_cases (text : jsstring) :
  processFile text
  = if blank text
    then Refused "Failed to process file. Please ensure it is a valid text, markdown, PDF, or Word document."
    else Loaded (tokenizeText text).
Proof.
  unfold processFile. destruct (blank text) eqn:Hb.
  - rewrite (trim_blank text Hb). cbn [length Nat.eqb]. rewrite orb_true_r.
    reflexivity.
  - pose proof (trim_not_blank text Hb) as Ht.
    destruct text as [ | a text ]; [ discriminate | ].
    destruct (trim (a :: text)); [ contradiction | reflexivity ].
Qed.

(** X5.  The text assembled from the items of a PDF, once through the
    upload guard and the tokenizer, gives the words of the items, item
    after item and page after page: joining items and pages with spaces
    merges no two words and adds none.  When no item holds a word the
    file is refused. *)
Theorem pdf_tokens (pages : list (list jsstring)) :
  (flat_map words_of (concat pages) = [] ->
   exists message, processFile (extractPdfText pages) = Refused message)
  /\ (flat_map words_of (concat pages) <> [] ->
      exists toks,
        processFile (extractPdfText pages) = Loaded toks
        /\ map word toks = flat_map words_of (concat pages)).
Proof.
  rewrite <- extractPdfText_words, processFile_cases. split; intros H.
  - apply words_of_nil_blank in H. rewrite H. eexists; reflexivity.
  - destruct (blank (extractPdfText pages)) eqn:Hb.
    + apply words_of_blank in Hb. contradiction.
    + eexists; split; [ reflexivity | ]. apply tokenizeText_words. exact Hb.
Qed.

Lemma pdf_tokens_witness :
  flat_map words_of (concat [[lit "Speed reading"; lit " is"]; []; [lit "fun."]])
  <> []
  /\ exists toks,
      processFile (extractPdfText
                     [[lit "Speed reading"; lit " is"]; []; [lit "fun."]])
      = Loaded toks
      /\ map word toks
         = flat_map words_of
             (concat [[lit "Speed reading"; lit " is"]; []; [lit "fun."]]).
Proof.
  split; [ discriminate | ].
  apply (proj2 (pdf_tokens [[lit "Speed reading"; lit " is"]; []; [lit "fun."]])).
  discriminate.
Defined.

End TokenizerMore.

(* ================================================================== *)
(** * The rendered word *)
(* ================================================================== *)

Section Rendering.

Import Reader.

Lemma range_ordered (w : jsstring) (mode : HighlightMode) :
  w <> [] -> Z.of_nat (length w) < 2 ^ 48 -> mode <> NONE ->
  let r := getHighlightRange w mode in
  0 <= start r /\ start r <= alignIndex r /\ alignIndex r < end_ r
  /\ end_ r <= Z.of_nat (length w).
Proof.
  intros Hw Hmax Hmode r.
  assert (Hlen : 1 <= Z.of_nat (length w))
    by (destruct w; [ contradiction | cbn [length]; lia ]).
  subst r. unfold getHighlightRange.
  set (len := Z.of_nat (length w)) in *.
  destruct mode; cbn [start end_ alignIndex]; try contradiction.
  - lia.
  - destruct (Z.eqb_spec (Z.min 2 len) 2); lia.
  - clearbody len. Z.div_mod_to_equations. lia.
  - destruct (Z.le_gt_cases len 1) as [H1 | H1].
    + unfold orpIndex.
      replace (len <=? 1) with true by (symmetry; apply Z.leb_le; lia). lia.
    + rewrite orpIndex_value by lia. rewrite ceil_div_35_100.
      clearbody len. Z.div_mod_to_equations. lia.
Qed.

Lemma alignIndex_in_word (w : jsstring) (mode : HighlightMode) :
  w <> [] -> Z.of_nat (length w) < 2 ^ 48 ->
  0 <= alignIndex (getHighlightRange w mode) < Z.of_nat (length w).
Proof.
  intros Hw Hmax. destruct mode.
  1-4: match goal with
       | |- context [getHighlightRange ?x ?m] =>
           pose proof (range_ordered x m Hw Hmax ltac:(discriminate)) as H;
           cbv zeta in H; lia
       end.
  assert (Hlen : 1 <= Z.of_nat (length w))
    by (destruct w; [ contradiction | cbn [length]; lia ]).
  cbn [getHighlightRange alignIndex].
  set (len := Z.of_nat (length w)) in *. clearbody len.
  Z.div_mod_to_equations. lia.
Qed.

(** X6.  For a non-empty word and any mode but [NONE], the character the
    word is centred on is one of the highlighted characters, and the
    highlighted span is not empty:
    [0 <= start <= alignIndex < end <= len]. *)
Theorem pivot_is_highlighted (w : jsstring) (mode : HighlightMode) :
  w <> [] -> Z.of_nat (length w) < 2 ^ 48 -> mode <> NONE ->
  let r := getHighlightRange w mode in
  0 <= start r /\ start r <= alignIndex r /\ alignIndex r < end_ r
  /\ end_ r <= Z.of_nat (length w).
Proof. apply range_ordered. Qed.

Lemma pivot_is_highlighted_witness :
  lit "reading" <> [] /\ Z.of_nat (length (lit "reading")) < 2 ^ 48
  /\ FIRST_HALF <> NONE
  /\ (let r := getHighlightRange (lit "reading") FIRST_HALF in
      0 <= start r /\ start r <= alignIndex r /\ alignIndex r < end_ r
      /\ end_ r <= Z.of_nat (length (lit "reading"))).
Proof.
  split; [ discriminate | ]. split; [ reflexivity | ]. split; [ discriminate | ].
  apply (pivot_is_highlighted (lit "reading") FIRST_HALF);
    [ discriminate | reflexivity | discriminate ].
Defined.

Lemma indexed_length {A : Type} (l : list A) :
  forall i, length (indexed i l) = length l.
Proof. induction l as [ | x l IH ]; intros i; cbn; [ | rewrite IH ]; reflexivity. Qed.

Lemma renderChars_length (w : jsstring) (mode : HighlightMode) :
  length (renderChars w mode) = length w.
Proof. unfold renderChars. rewrite length_map. apply indexed_length. Qed.

Lemma renderChars_text (w : jsstring) (mode : HighlightMode) :
  map fst (renderChars w mode) = w.
Proof.
  unfold renderChars. rewrite map_map. cbn [fst].
  generalize 0. induction w as [ | c w IH ]; intros i; cbn; [ | rewrite IH ];
    reflexivity.
Qed.

(** Cutting an array around one of its indices loses nothing. *)
Lemma slice_around {A : Type} (l : list A) (a : Z) :
  0 <= a < Z.of_nat (length l) ->
  exists x, item l a = Some x
            /\ slice l 0 a ++ x :: slice_from l (a + 1) = l.
Proof.
  intros Ha. unfold item, slice_from, slice, rel_index.
  replace (a <? 0) with false by (symmetry; apply Z.ltb_ge; lia).
  replace (a + 1 <? 0) with false by (symmetry; apply Z.ltb_ge; lia).
  replace (Z.of_nat (length l) <? 0) with false by (symmetry; apply Z.ltb_ge; lia).
  change (0 <? 0) with false. cbv iota.
  rewrite !Z.min_l by lia.
  destruct (nth_error l (Z.to_nat a)) as [ x | ] eqn:E.
  - exists x. split; [ reflexivity | ].
    destruct (nth_error_split l (Z.to_nat a) E) as (l1 & l2 & Hl & Hlen).
    change (Z.to_nat 0) with 0%nat. cbn [skipn].
    replace (Z.to_nat (a - 0)) with (length l1) by lia.
    replace (Z.to_nat (a + 1)) with (S (length l1)) by lia.
    replace (Z.to_nat (Z.of_nat (length l) - (a + 1))) with (length l2)
      by (rewrite Hl, length_app; cbn [length]; lia).
    rewrite Hl at 1 2.
    rewrite firstn_app, firstn_all, Nat.sub_diag, firstn_O, app_nil_r.
    replace (l1 ++ x :: l2) with ((l1 ++ [x]) ++ l2) at 1
      by (rewrite <- app_assoc; reflexivity).
    rewrite skipn_app.
    replace (length (l1 ++ [x])) with (S (length l1))
      by (rewrite length_app; cbn [length]; lia).
    rewrite skipn_all2 by (rewrite length_app; cbn [length]; lia).
    rewrite Nat.sub_diag. cbn [skipn app]. rewrite firstn_all. exact (eq_sym Hl).
  - apply nth_error_None in E. lia.
Qed.

(** X7.  [renderWord] lays out every character of a non-empty word exactly
    once and in order, under every mode: the characters left of the
    pivot, the pivot, and the characters right of it make up the word. *)
Theorem renderWord_keeps_word (w : jsstring) (mode : HighlightMode) :
  w <> [] -> Z.of_nat (length w) < 2 ^ 48 ->
  exists pivot,
    centerChar (renderWord w mode) = Some pivot
    /\ map fst (leftChars (renderWord w mode))
       ++ fst pivot :: map fst (rightChars (renderWord w mode))
       = w
    /\ Z.of_nat (length (leftChars (renderWord w mode)))
       = alignIndex (getHighlightRange w mode).
Proof.
  intros Hw Hmax. unfold renderWord. cbn [leftChars centerChar rightChars].
  pose proof (alignIndex_in_word w mode Hw Hmax) as Ha.
  rewrite <- (renderChars_length w mode) in Ha.
  destruct (slice_around (renderChars w mode) _ Ha) as (x & Hx & Hsplit).
  exists x. split; [ exact Hx | ]. split.
  - etransitivity; [ | apply (renderChars_text w mode) ].
    rewrite <- (f_equal (map fst) Hsplit), map_app. reflexivity.
  - unfold slice, rel_index.
    replace (alignIndex (getHighlightRange w mode) <? 0) with false
      by (symmetry; apply Z.ltb_ge; lia).
    change (0 <? 0) with false. cbv iota.
    rewrite !Z.min_l by lia. change (Z.to_nat 0) with 0%nat. cbn [skipn].
    rewrite length_firstn. lia.
Qed.

Lemma renderWord_keeps_word_witness :
  lit "apple" <> [] /\ Z.of_nat (length (lit "apple")) < 2 ^ 48
  /\ exists pivot,
      centerChar (renderWord (lit "apple") ORP_OPTIMAL) = Some pivot
      /\ map fst (leftChars (renderWord (lit "apple") ORP_OPTIMAL))
         ++ fst pivot :: map fst (rightChars (renderWord (lit "apple") ORP_OPTIMAL))
         = lit "apple"
      /\ Z.of_nat (length (leftChars (renderWord (lit "apple") ORP_OPTIMAL)))
         = alignIndex (getHighlightRange (lit "apple") ORP_OPTIMAL).
Proof.
  split; [ discriminate | ]. split; [ reflexivity | ].
  apply (renderWord_keeps_word (lit "apple") ORP_OPTIMAL);
    [ discriminate | reflexivity ].
Defined.

Lemma count_interval {A : Type} (lo hi : Z) (l : list A) :
  forall i,
    Z.of_nat (length (filter (fun p => (lo <=? fst p) && (fst p <? hi))
                             (indexed i l)))
    = Z.max 0 (Z.min hi (i + Z.of_nat (length l)) - Z.max lo i).
Proof.
  induction l as [ | x l IH ]; intros i; cbn [indexed filter length fst].
  - lia.
  - destruct (Z.leb_spec lo i); destruct (Z.ltb_spec i hi); cbn [andb length];
      rewrite ?Nat2Z.inj_succ, IH; lia.
Qed.

Lemma isHighlighted_interval (w : jsstring) (mode : HighlightMode) (i : Z) :
  isHighlighted mode (getHighlightRange w mode) i
  = (start (getHighlightRange w mode) <=? i)
    && (i <? end_ (getHighlightRange w mode)).
Proof.
  destruct mode; cbn [isHighlighted getHighlightRange start end_];
    try reflexivity.
  - destruct (Z.eqb_spec i (orpIndex (Z.of_nat (length w))));
      destruct (Z.leb_spec (orpIndex (Z.of_nat (length w))) i);
      destruct (Z.ltb_spec i (orpIndex (Z.of_nat (length w)) + 1));
      cbn [andb]; try reflexivity; lia.
  - destruct (Z.leb_spec (-1) i); destruct (Z.ltb_spec i (-1));
      cbn [andb]; try reflexivity; lia.
Qed.

(** X8.  In a non-empty word the number of characters that [renderWord]
    highlights is [end - start]: one under [FIRST_LETTER] and
    [ORP_OPTIMAL], none under [NONE]. *)
Theorem highlighted_count (w : jsstring) (mode : HighlightMode) :
  w <> [] -> Z.of_nat (length w) < 2 ^ 48 ->
  Z.of_nat (length (filter snd (renderChars w mode)))
  = end_ (getHighlightRange w mode) - start (getHighlightRange w mode)
  /\ (mode = FIRST_LETTER \/ mode = ORP_OPTIMAL ->
      length (filter snd (renderChars w mode)) = 1%nat)
  /\ (mode = NONE -> filter snd (renderChars w mode) = []).
Proof.
  intros Hw Hmax.
  assert (Hcount :
            Z.of_nat (length (filter snd (renderChars w mode)))
            = end_ (getHighlightRange w mode) - start (getHighlightRange w mode)).
  { unfold renderChars.
    assert (Hf : forall (l : list (Z * N)),
               length (filter snd
                         (map (fun p => (snd p,
                                         isHighlighted mode (getHighlightRange w mode) (fst p)))
                              l))
               = length (filter (fun p => (start (getHighlightRange w mode) <=? fst p)
                                          && (fst p <? end_ (getHighlightRange w mode)))
                                l)).
    { induction l as [ | p l IH ]; [ reflexivity | ].
      cbn [map filter snd]. rewrite isHighlighted_interval.
      destruct ((start (getHighlightRange w mode) <=? fst p)
                && (fst p <? end_ (getHighlightRange w mode)));
        cbn [length]; rewrite IH; reflexivity. }
    rewrite Hf, count_interval.
    destruct mode.
    1-4: match goal with
         | |- context [getHighlightRange ?x ?m] =>
             pose proof (range_ordered x m Hw Hmax ltac:(discriminate)) as H;
             cbv zeta in H; lia
         end.
    cbn [getHighlightRange start end_]. lia. }
  split; [ exact Hcount | ]. split.
  - intros [-> | ->]; cbn [getHighlightRange start end_] in Hcount; lia.
  - intros ->. cbn [getHighlightRange start end_] in Hcount.
    destruct (filter snd (renderChars w NONE)); [ reflexivity | cbn in Hcount; lia ].
Qed.

Lemma highlighted_count_witness :
  lit "apple" <> [] /\ Z.of_nat (length (lit "apple")) < 2 ^ 48
  /\ Z.of_nat (length (filter snd (renderChars (lit "apple") FIRST_HALF)))
     = end_ (getHighlightRange (lit "apple") FIRST_HALF)
       - start (getHighlightRange (lit "apple") FIRST_HALF).
Proof.
  split; [ discriminate | ]. split; [ reflexivity | ].
  apply (proj1 (highlighted_count (lit "apple") FIRST_HALF
                  ltac:(discriminate) eq_refl)).
Defined.

End Rendering.

(* ================================================================== *)
(** * The reader under its controls *)
(* ================================================================== *)

Section Controls.

Import Reader.

Lemma handle_index (n : Z) (ev : event) (st : state) :
  1 <= n -> 0 <= index st < n -> 0 <= index (handle n ev st) < n.
Proof.
  intros Hn Hi. destruct ev; cbn [handle setIndex setIsPlaying setWpm index];
    try lia.
  - unfold pauseEffect.
    destruct (negb (isPlaying st) && negb (JS.truthy (pauseStartTimeRef st))
              && JS.truthy (sessionStartTimeRef st)); cbn [index]; lia.
  - unfold advance. destruct (Z.leb_spec n (index st + 1));
      cbn [fst handleFinish setIndex index]; lia.
Qed.

Lemma run_index (n : Z) (evs : list event) :
  forall st, 1 <= n -> 0 <= index st < n -> 0 <= index (run n evs st) < n.
Proof.
  induction evs as [ | ev evs IH ]; intros st Hn Hi; cbn [run fold_left].
  - exact Hi.
  - apply IH; [ exact Hn | apply handle_index; assumption ].
Qed.

(** X9.  Whatever the user does with the keys, the buttons and the
    sliders, and however often the timer fires, the index of the reader
    stays inside the tokens of the loaded text, so the word on display is
    always one of its tokens and never the placeholder for a missing
    one. *)
Theorem index_stays_in_text
        (text : jsstring) (initialWpm : JS.number) (evs : list event) :
  let words := tokenizeText text in
  let st := run (Z.of_nat (length words)) evs (init initialWpm) in
  0 <= index st < Z.of_nat (length words)
  /\ In (currentWordToken words (index st)) words
  /\ nth_error words (Z.to_nat (index st))
     = Some (currentWordToken words (index st)).
Proof.
  intros words st.
  pose proof (tokenizeText_length text) as Hlen. fold words in Hlen.
  assert (Hi : 0 <= index st < Z.of_nat (length words)).
  { apply run_index; cbn [init index]; lia. }
  split; [ exact Hi | ].
  unfold currentWordToken.
  replace (index st <? 0) with false by (symmetry; apply Z.ltb_ge; lia).
  destruct (nth_error words (Z.to_nat (index st))) as [ tok | ] eqn:E.
  - split; [ eapply nth_error_In; exact E | reflexivity ].
  - apply nth_error_None in E. lia.
Qed.

Lemma setIndex_same (st : state) : setIndex (index st) st = st.
Proof. destruct st; reflexivity. Qed.

Lemma ticks_progress (n : Z) (times : list Z) :
  forall st,
    index st + Z.of_nat (length times) < n ->
    ticks n times st = (setIndex (index st + Z.of_nat (length times)) st, []).
Proof.
  induction times as [ | t times IH ]; intros st H; cbn [ticks length].
  - change (Z.of_nat 0) with 0. rewrite Z.add_0_r, setIndex_same. reflexivity.
  - cbn [length] in H. rewrite Nat2Z.inj_succ in H.
    change (length (t :: times)) with (S (length times)).
    rewrite Nat2Z.inj_succ. unfold advance.
    replace (n <=? index st + 1) with false by (symmetry; apply Z.leb_gt; lia).
    rewrite IH by (cbn [setIndex index]; lia).
    f_equal. unfold setIndex.
    cbn [index isPlaying wpm sessionStartTimeRef totalPauseDurationRef
         pauseStartTimeRef timerRef].
    f_equal. lia.
Qed.

Lemma ticks_app (n : Z) (a b : list Z) :
  forall st,
    ticks n (a ++ b) st
    = (fst (ticks n b (fst (ticks n a st))),
       snd (ticks n a st) ++ snd (ticks n b (fst (ticks n a st)))).
Proof.
  induction a as [ | t a IH ]; intros st; cbn [app ticks].
  - cbn [fst snd app]. destruct (ticks n b st); reflexivity.
  - destruct (advance n t st) as [st1 report]. rewrite IH.
    destruct (ticks n a st1) as [st2 r2]. cbn [fst snd].
    destruct (ticks n b st2) as [st3 r3]. cbn [fst snd].
    destruct report; reflexivity.
Qed.

(** X10.  A reader at the first of [n] words finishes on the [n]-th firing
    of its timer and not before: the first [n - 1] firings move the index
    to the last word without a report, and the next one stops the reader
    and reports [n] words read, with the duration and the rate of that
    moment. *)
Theorem timer_reads_every_word
        (n : Z) (times : list Z) (t : Z) (st : state) :
  index st = 0 -> Z.of_nat (length times) = n - 1 ->
  snd (ticks n times st) = []
  /\ index (fst (ticks n times st)) = n - 1
  /\ snd (ticks n (times ++ [t]) st) = [(n, duration t st, wpm st)]
  /\ index (fst (ticks n (times ++ [t]) st)) = n - 1
  /\ isPlaying (fst (ticks n (times ++ [t]) st)) = false.
Proof.
  intros H0 Hlen.
  rewrite ticks_app, !(ticks_progress n times st) by lia. cbn [fst snd app].
  rewrite H0, Z.add_0_l, Hlen.
  split; [ reflexivity | ]. split; [ reflexivity | ].
  cbn [ticks]. unfold advance. cbn [setIndex index].
  replace (n <=? n - 1 + 1) with true by (symmetry; apply Z.leb_le; lia).
  cbn [fst snd handleFinish index isPlaying wpm].
  split; [ | split; reflexivity ].
  unfold duration.
  cbn [setIndex sessionStartTimeRef totalPauseDurationRef index wpm].
  replace (n - 1 + 1) with n by lia. reflexivity.
Qed.

Lemma timer_reads_every_word_witness :
  index (init (JS.of_Z 600)) = 0
  /\ Z.of_nat (length [100; 200]) = 3 - 1
  /\ snd (ticks 3 ([100; 200] ++ [300]) (init (JS.of_Z 600)))
     = [(3, duration 300 (init (JS.of_Z 600)), wpm (init (JS.of_Z 600)))].
Proof.
  split; [ reflexivity | ]. split; [ reflexivity | ].
  apply (timer_reads_every_word 3 [100; 200] 300 (init (JS.of_Z 600)));
    reflexivity.
Defined.

(** X11.  Pausing a started reader and resuming it adds exactly the
    length of the pause to the accumulated pause time, keeps the recorded
    session start and the index, and so takes exactly the pause out of
    the duration reported later. *)
Theorem pause_resume_accounting
        (n s t1 t2 : Z) (h : positive) (st : state) :
  sessionStartTimeRef st = Some s -> s <> 0 -> t1 <> 0 -> index st < n ->
  let st' := startReading n t2 h (pauseReading t1 st) in
  sessionStartTimeRef st' = Some s
  /\ totalPauseDurationRef st' = totalPauseDurationRef st + (t2 - t1)
  /\ pauseStartTimeRef st' = None
  /\ index st' = index st
  /\ isPlaying st' = true
  /\ forall t3,
       duration t3 st'
       = JS.div (JS.of_Z (t3 - s - totalPauseDurationRef st - (t2 - t1)))
                (JS.of_Z 1000).
Proof.
  intros Hs Hs0 Ht1 Hi st'. subst st'. unfold startReading.
  cbn [pauseReading index pauseStartTimeRef sessionStartTimeRef
       totalPauseDurationRef JS.truthy].
  replace (n <=? index st) with false by (symmetry; apply Z.leb_gt; lia).
  replace (t1 =? 0) with false by (symmetry; apply Z.eqb_neq; exact Ht1).
  rewrite Hs. cbn [JS.truthy negb].
  replace (s =? 0) with false by (symmetry; apply Z.eqb_neq; exact Hs0).
  cbn [negb sessionStartTimeRef totalPauseDurationRef pauseStartTimeRef
       index isPlaying].
  repeat split.
  intros t3. unfold duration.
  cbn [sessionStartTimeRef totalPauseDurationRef JS.truthy].
  replace (s =? 0) with false by (symmetry; apply Z.eqb_neq; exact Hs0).
  cbn [negb]. do 2 f_equal. lia.
Qed.

Lemma pause_resume_accounting_witness :
  let st := startReading 10 1000 1%positive (init (JS.of_Z 300)) in
  sessionStartTimeRef st = Some 1000 /\ 1000 <> 0 /\ 5000 <> 0
  /\ index st < 10
  /\ totalPauseDurationRef (startReading 10 9000 2%positive (pauseReading 5000 st))
     = totalPauseDurationRef st + (9000 - 5000).
Proof.
  cbv zeta. split; [ reflexivity | ]. split; [ discriminate | ].
  split; [ discriminate | ]. split; [ reflexivity | ].
  apply (pause_resume_accounting 10 1000 5000 9000 2%positive
           (startReading 10 1000 1%positive (init (JS.of_Z 300))));
    (reflexivity || discriminate).
Defined.

Lemma handle_refs (n : Z) (ev : event) (st : state) :
  sessionStartTimeRef st = None /\ pauseStartTimeRef st = None
  /\ totalPauseDurationRef st = 0 ->
  sessionStartTimeRef (handle n ev st) = None
  /\ pauseStartTimeRef (handle n ev st) = None
  /\ totalPauseDurationRef (handle n ev st) = 0.
Proof.
  intros (H1 & H2 & H3).
  destruct ev; cbn [handle setIndex setIsPlaying setWpm sessionStartTimeRef
                    pauseStartTimeRef totalPauseDurationRef];
    try (repeat split; assumption).
  - unfold pauseEffect. rewrite H1. cbn [JS.truthy]. rewrite andb_false_r.
    repeat split; assumption.
  - unfold advance. destruct (n <=? index st + 1);
      cbn [fst handleFinish setIndex sessionStartTimeRef pauseStartTimeRef
           totalPauseDurationRef]; repeat split; assumption.
Qed.

Lemma run_refs (n : Z) (evs : list event) :
  forall st,
    sessionStartTimeRef st = None /\ pauseStartTimeRef st = None
    /\ totalPauseDurationRef st = 0 ->
    sessionStartTimeRef (run n evs st) = None
    /\ pauseStartTimeRef (run n evs st) = None
    /\ totalPauseDurationRef (run n evs st) = 0.
Proof.
  induction evs as [ | ev evs IH ]; intros st H; cbn [run fold_left].
  - exact H.
  - apply IH, handle_refs, H.
Qed.

End Controls.

(** X12.  None of the controls that the component binds records the start
    of the session: only [startReading] does, and nothing calls it.  So
    after any sequence of key presses, clicks, slider moves, effect runs
    and timer firings the reported duration is 0: a finished session is
    kept exactly when more than 50 words were read, and it is kept with a
    duration of 0 seconds. *)
Theorem controls_report_no_duration
        (n : Z) (initialWpm : JS.number) (evs : list Reader.event)
        (endTime now words : Z) (stats : ReadingStats) :
  let st := Reader.run n evs (Reader.init initialWpm) in
  let stats' :=
    handleReadingFinish now stats words (Reader.duration endTime st)
                        (Reader.wpm st) in
  Reader.sessionStartTimeRef st = None
  /\ Reader.duration endTime st = JS.zero
  /\ (words <= 50 -> stats' = stats)
  /\ (50 < words ->
      sessions stats'
      = sessions stats
        ++ [ {| id := now; date := now; wordsRead := words;
                durationSeconds := JS.zero; wpm := Reader.wpm st |} ]).
Proof.
  intros st stats'.
  destruct (run_refs n evs (Reader.init initialWpm)) as (H1 & H2 & H3);
    [ repeat split | ].
  fold st in H1, H2, H3.
  assert (Hd : Reader.duration endTime st = JS.zero)
    by (unfold Reader.duration; rewrite H1; reflexivity).
  split; [ exact H1 | ]. split; [ exact Hd | ].
  subst stats'. rewrite Hd. unfold handleReadingFinish, significant.
  change (JS.gt JS.zero (JS.of_Z 10)) with false. cbn [orb].
  split; intros Hw.
  - replace (50 <? words) with false by (symmetry; apply Z.ltb_ge; exact Hw).
    reflexivity.
  - replace (50 <? words) with true by (symmetry; apply Z.ltb_lt; exact Hw).
    reflexivity.
Qed.

Lemma controls_report_no_duration_witness :
  let st := Reader.run 60 [Reader.ClickPlay; Reader.TimerFired 1000;
                           Reader.KeySpace; Reader.EffectPause 2000]
                       (Reader.init (JS.of_Z 300)) in
  50 < 60
  /\ sessions (handleReadingFinish 90000 emptyStats 60
                 (Reader.duration 90000 st) (Reader.wpm st))
     = [ {| id := 90000; date := 90000; wordsRead := 60;
            durationSeconds := JS.zero; wpm := Reader.wpm st |} ].
Proof.
  cbv zeta. split; [ reflexivity | ].
  apply (proj2 (proj2 (proj2
           (controls_report_no_duration 60 (JS.of_Z 300)
              [Reader.ClickPlay; Reader.TimerFired 1000;
               Reader.KeySpace; Reader.EffectPause 2000]
              90000 90000 60 emptyStats)))).
  reflexivity.
Defined.



(* ================================================================== *)
(** * The rate under the arrow keys *)
(* ================================================================== *)

Section Rate.

Import Reader.

Lemma number_eqb_eq (x y : JS.number) : JS.number_eqb x y = true -> x = y.
Proof.
  destruct x as [a | a | | a m e]; destruct y as [b | b | | b m' e'];
    cbn [JS.number_eqb]; try discriminate; try reflexivity.
  - intros H. apply Bool.eqb_prop in H. congruence.
  - intros H. apply Bool.eqb_prop in H. congruence.
  - intros H. apply andb_true_iff in H. destruct H as [H He].
    apply andb_true_iff in H. destruct H as [Ha Hm].
    apply Bool.eqb_prop in Ha. apply Pos.eqb_eq in Hm. apply Z.eqb_eq in He.
    congruence.
Qed.

Lemma Z_range_In (lo : Z) (n : nat) (z : Z) :
  lo <= z < lo + Z.of_nat n -> In z (Z_range lo n).
Proof.
  intros H. unfold Z_range. apply in_map_iff.
  exists (Z.to_nat (z - lo)). split; [ lia | ].
  apply in_seq. lia.
Qed.

(** The two key handlers on every integer rate from 100 to 2000,
    by evaluation. *)
Lemma arrow_keys_table :
  forallb (fun w =>
             JS.number_eqb
               (JS.Math_min (JS.add (JS.of_Z w) (JS.of_Z 50)) (JS.of_Z 2000))
               (JS.of_Z (Z.min (w + 50) 2000))
             && JS.number_eqb
                  (JS.Math_max (JS.sub (JS.of_Z w) (JS.of_Z 50)) (JS.of_Z 100))
                  (JS.of_Z (Z.max (w - 50) 100)))
          (Z_range 100 1901)
  = true.
Proof. vm_compute. reflexivity. Qed.

(** X13.  On an integer rate between 100 and 2000 words per minute the
    up and down arrow keys move the rate by 50 and stop at 2000 and at
    100: the rate stays an integer in that interval. *)
Theorem arrow_keys_keep_rate (n w : Z) (st : state) :
  100 <= w <= 2000 -> wpm st = JS.of_Z w ->
  wpm (handle n KeyArrowUp st) = JS.of_Z (Z.min (w + 50) 2000)
  /\ wpm (handle n KeyArrowDown st) = JS.of_Z (Z.max (w - 50) 100)
  /\ 100 <= Z.min (w + 50) 2000 <= 2000
  /\ 100 <= Z.max (w - 50) 100 <= 2000.
Proof.
  intros Hw Hst. cbn [handle setWpm wpm]. rewrite Hst.
  pose proof arrow_keys_table as T. rewrite forallb_forall in T.
  specialize (T w (Z_range_In 100 1901 w ltac:(lia))).
  apply andb_true_iff in T. destruct T as [Tup Tdown].
  split; [ apply number_eqb_eq; exact Tup | ].
  split; [ apply number_eqb_eq; exact Tdown | ]. lia.
Qed.

Lemma arrow_keys_keep_rate_witness :
  100 <= 1980 <= 2000
  /\ wpm (init (JS.of_Z 1980)) = JS.of_Z 1980
  /\ wpm (handle 10 KeyArrowUp (init (JS.of_Z 1980))) = JS.of_Z 2000.
Proof.
  split; [ split; discriminate | ]. split; [ reflexivity | ].
  apply (proj1 (arrow_keys_keep_rate 10 1980 (init (JS.of_Z 1980))
                  ltac:(split; discriminate) eq_refl)).
Defined.

(** X16.  The effect that tracks pauses is idempotent, unlike
    [pauseReading]: once it has recorded the start of a pause, running it
    again at a later time changes nothing, and it never moves a pause
    start that is already recorded. *)
Theorem pauseEffect_keeps_first_pause (t1 t2 p : Z) (st : state) :
  (t1 <> 0 -> pauseEffect t2 (pauseEffect t1 st) = pauseEffect t1 st)
  /\ (pauseStartTimeRef st = Some p -> p <> 0 -> pauseEffect t2 st = st).
Proof.
  split.
  - apply pauseEffect_idempotent.
  - intros Hp Hnz. unfold pauseEffect. rewrite Hp. cbn [JS.truthy].
    replace (p =? 0) with false by (symmetry; apply Z.eqb_neq; exact Hnz).
    cbn [negb]. rewrite andb_false_r. reflexivity.
Qed.

Lemma pauseEffect_keeps_first_pause_witness :
  let st := setIsPlaying false
              (startReading 10 1000 1%positive (init (JS.of_Z 300))) in
  5000 <> 0
  /\ pauseStartTimeRef (pauseEffect 5000 st) = Some 5000
  /\ pauseEffect 8000 (pauseEffect 5000 st) = pauseEffect 5000 st.
Proof.
  cbv zeta. split; [ discriminate | ]. split; [ reflexivity | ].
  apply (proj1 (pauseEffect_keeps_first_pause 5000 8000 0
                  (setIsPlaying false
                     (startReading 10 1000 1%positive (init (JS.of_Z 300)))))).
  discriminate.
Defined.

End Rate.

(* ================================================================== *)
(** * The statistics *)
(* ================================================================== *)









Lemma indexed_nth {A : Type} (l : list A) :
  forall i k j x,
    nth_error (indexed i l) k = Some (j, x) ->
    j = i + Z.of_nat k /\ nth_error l k = Some x.
Proof.
  induction l as [ | y l IH ]; intros i k j x H.
  - destruct k; discriminate.
  - destruct k as [ | k ]; cbn [indexed nth_error] in *.
    + injection H as <- <-. split; [ lia | reflexivity ].
    + destruct (IH _ _ _ _ H) as [H1 H2]. split; [ lia | exact H2 ].
Qed.

Lemma slice_from_last {A : Type} (l : list A) (k : nat) :
  slice_from l (- Z.of_nat (S k)) = skipn (length l - S k) l.
Proof.
  unfold slice_from, slice, rel_index.
  replace (- Z.of_nat (S k) <? 0) with true by (symmetry; apply Z.ltb_lt; lia).
  replace (Z.of_nat (length l) <? 0) with false by (symmetry; apply Z.ltb_ge; lia).
  rewrite Z.min_id.
  replace (Z.to_nat (Z.max (Z.of_nat (length l) + - Z.of_nat (S k)) 0))
    with (length l - S k)%nat by lia.
  apply firstn_all2. rewrite length_skipn. lia.
Qed.

Lemma chartData_length (stats : ReadingStats) :
  length (StatsView.chartData stats) = Nat.min 10 (length (sessions stats)).
Proof.
  unfold StatsView.chartData.
  change (-10) with (- Z.of_nat 10). rewrite slice_from_last.
  rewrite length_map, indexed_length, length_skipn. lia.
Qed.

Lemma chartData_nth (stats : ReadingStats) (k : nat) (b : StatsView.bar) :
  nth_error (StatsView.chartData stats) k = Some b ->
  StatsView.name b = Z.of_nat k + 1
  /\ exists s,
      nth_error (sessions stats) (length (sessions stats) - 10 + k) = Some s
      /\ StatsView.wpm b = wpm s
      /\ StatsView.words b = wordsRead s.
Proof.
  unfold StatsView.chartData.
  change (-10) with (- Z.of_nat 10). rewrite slice_from_last.
  intros H. rewrite nth_error_map in H.
  destruct (nth_error (indexed 0 (skipn (length (sessions stats) - 10)
                                        (sessions stats))) k)
    as [ [j s] | ] eqn:E; [ | discriminate ].
  injection H as <-. cbn [StatsView.name StatsView.wpm StatsView.words fst snd].
  destruct (indexed_nth _ _ _ _ _ E) as [Hj Hs].
  split; [ lia | ]. exists s. rewrite nth_error_skipn in Hs.
  split; [ exact Hs | split; reflexivity ].
Qed.

(** X15.  The chart shows the most recent sessions, at most ten, oldest
    first and numbered from 1: it has as many bars as there are sessions,
    up to ten, and for every [k] below that number bar [k] exists, carries
    the name [k + 1], and has the rate and word count of the session that
    lies [k] places after the first one shown (the session at position
    [length - 10 + k], counting from the tenth from the end or from the
    first when there are fewer than ten). *)
Theorem chartData_recent (stats : ReadingStats) :
  length (StatsView.chartData stats) = Nat.min 10 (length (sessions stats))
  /\ forall k : nat,
      (k < Nat.min 10 (length (sessions stats)))%nat ->
      exists b s,
        nth_error (StatsView.chartData stats) k = Some b
        /\ nth_error (sessions stats) (length (sessions stats) - 10 + k)
           = Some s
        /\ StatsView.name b = Z.of_nat k + 1
        /\ StatsView.wpm b = wpm s
        /\ StatsView.words b = wordsRead s.
Proof.
  split; [ apply chartData_length | ].
  intros k Hk.
  destruct (nth_error (StatsView.chartData stats) k) as [ b | ] eqn:E.
  - destruct (chartData_nth stats k b E) as (Hn & s & Hs & Hw & Hr).
    exists b, s. repeat split; assumption.
  - apply nth_error_None in E. rewrite chartData_length in E. lia.
Qed.

Lemma chartData_recent_witness :
  let stats := finishAll
                 [ {| finishedAt := 1000; finishedWords := 60;
                      finishedDuration := JS.of_Z 12; finishedWpm := JS.of_Z 300 |};
                   {| finishedAt := 2000; finishedWords := 80;
                      finishedDuration := JS.of_Z 20; finishedWpm := JS.of_Z 350 |} ]
                 emptyStats in
  (1 < Nat.min 10 (length (sessions stats)))%nat
  /\ exists b s,
      nth_error (StatsView.chartData stats) 1 = Some b
      /\ nth_error (sessions stats) (length (sessions stats) - 10 + 1) = Some s
      /\ StatsView.name b = Z.of_nat 1 + 1
      /\ StatsView.wpm b = wpm s
      /\ StatsView.words b = wordsRead s.
Proof.
  cbv zeta.
  assert (H : (1 < Nat.min 10
                     (length (sessions
                        (finishAll
                           [ {| finishedAt := 1000; finishedWords := 60;
                                finishedDuration := JS.of_Z 12;
                                finishedWpm := JS.of_Z 300 |};
                             {| finishedAt := 2000; finishedWords := 80;
                                finishedDuration := JS.of_Z 20;
                                finishedWpm := JS.of_Z 350 |} ]
                           emptyStats))))%nat).
  { vm_compute. apply le_n. }
  split; [ exact H | ].
  exact (proj2 (chartData_recent
                  (finishAll
                     [ {| finishedAt := 1000; finishedWords := 60;
                          finishedDuration := JS.of_Z 12;
                          finishedWpm := JS.of_Z 300 |};
                       {| finishedAt := 2000; finishedWords := 80;
                          finishedDuration := JS.of_Z 20;
                          finishedWpm := JS.of_Z 350 |} ]
                     emptyStats)) 1%nat H).
Defined.
